(** * phosphor-queue: a shallow embedding of [Queue<T>] (src/src/index.ts)

    The queue of the source is a singly linked chain of [IQueueLink]
    objects living in the JavaScript heap, together with an object holding
    the three private fields [_size], [_front] and [_back].  The embedding
    keeps that shape: links are records in a store indexed by references,
    the methods are state transformers over the store and the receiver's
    fields, and the loops that walk the chain take a step budget, because
    on a cyclic chain the source loops forever. *)

From Stdlib Require Import ZArith Lia.
From stdpp Require Import gmap list.

#[local] Set Warnings "-clear-no-such-hyp".

Local Open Scope Z_scope.

(** ** Data model *)

(** A reference to a link object.  [null] is [None] in [option loc]. *)
Abbreviation loc := positive (only parsing).

(** [interface IQueueLink<T> { next: IQueueLink<T>; value: T; }] *)
Record IQueueLink (T : Type) := Link { next : option loc; value : T }.
Arguments Link {T} _ _.
Arguments next {T} _.
Arguments value {T} _.

(** The private fields of a [Queue<T>] object.  [_size] is a JS number
    that the code only increments and decrements by one; it is kept as an
    integer that may go below zero, as [this._size--] would. *)
Record Queue := MkQueue { _size : Z; _front : option loc; _back : option loc }.

(** The state a method runs in: the receiver's fields ([this]), the store
    of link objects, and whatever else the caller's callbacks can see and
    change ([env]). *)
Record world (T E : Type) :=
  World { this : Queue; links : gmap loc (IQueueLink T); env : E }.
Arguments World {T E} _ _ _.
Arguments this {T E} _.
Arguments links {T E} _.
Arguments env {T E} _.

(** The strict equality [===] of the element type, used by [remove] and
    [removeAll] only.  Nothing is assumed about it: on JS numbers it is
    not reflexive ([NaN !== NaN]). *)
Class StrictEq (T : Type) := strict_eq : T -> T -> bool.

(** A JS array: a list of slots, [None] being a hole (an index below
    [length] that was never assigned). *)
Abbreviation array A := (list (option A)) (only parsing).

(** [new Array(n)]: [n] holes; a negative length throws [RangeError]. *)
Definition new_Array {A : Type} (n : Z) : option (array A) :=
  if n <? 0 then None else Some (replicate (Z.to_nat n) None).

(** [arr[i] = v] for [0 <= i]: overwrites a slot in range, and past the end
    extends the array with holes up to [i]. *)
Definition array_set {A : Type} (i : Z) (v : A) (arr : array A) : array A :=
  let k := Z.to_nat i in
  if (k <? length arr)%nat then <[k := Some v]> arr
  else arr ++ replicate (k - length arr)%nat None ++ [Some v].

(** [arr.push(v)] *)
Definition array_push {A : Type} (v : A) (arr : array A) : array A :=
  arr ++ [Some v].

(** ** The monad of methods

    [None] means that the call produced no result: a loop used up its step
    budget, a reference outside the store was followed (no JS execution
    does that), or [new Array] threw. *)
Section Monad.
Context {T E : Type}.

Definition M (A : Type) : Type := world T E -> option (A * world T E).

Definition ret {A} (a : A) : M A := fun w => Some (a, w).

Definition bind {A B} (m : M A) (k : A -> M B) : M B :=
  fun w => match m w with
           | Some (a, w') => k a w'
           | None => None
           end.

Definition fail {A} : M A := fun _ => None.

Definition get_size : M Z := fun w => Some (_size (this w), w).
Definition get_front : M (option loc) := fun w => Some (_front (this w), w).
Definition get_back : M (option loc) := fun w => Some (_back (this w), w).

Definition set_size (n : Z) : M unit := fun w =>
  Some (tt, World (MkQueue n (_front (this w)) (_back (this w))) (links w) (env w)).
Definition set_front (p : option loc) : M unit := fun w =>
  Some (tt, World (MkQueue (_size (this w)) p (_back (this w))) (links w) (env w)).
Definition set_back (p : option loc) : M unit := fun w =>
  Some (tt, World (MkQueue (_size (this w)) (_front (this w)) p) (links w) (env w)).

(** [{ next: n, value: v }]: a new object at a reference not in use. *)
Definition new_link (l : IQueueLink T) : M loc := fun w =>
  let a := fresh (dom (links w)) in
  Some (a, World (this w) (<[a := l]> (links w)) (env w)).

(** Reading the fields of the object at [a]. *)
Definition load (a : loc) : M (IQueueLink T) := fun w =>
  match links w !! a with
  | Some l => Some (l, w)
  | None => None
  end.

(** [a.next = n] *)
Definition store_next (a : loc) (n : option loc) : M unit := fun w =>
  match links w !! a with
  | Some l => Some (tt, World (this w) (<[a := Link n (value l)]> (links w)) (env w))
  | None => None
  end.

(** Calling a function supplied by the caller. *)
Definition call {R} (f : world T E -> R * world T E) : M R :=
  fun w => Some (f w).

(** Raising a host-level failure carried by an [option]. *)
Definition lift {A} (o : option A) : M A := fun w =>
  match o with
  | Some a => Some (a, w)
  | None => None
  end.
End Monad.

Notation "'let*' x ':=' m 'in' k" := (bind m (fun x => k))
  (at level 10, x name, m at level 200, k at level 200).
Notation "m '>>' k" := (bind m (fun _ => k))
  (at level 100, k at level 200, right associativity).

(** ** The methods of [Queue<T>] *)
Section Methods.
Context {T E : Type}.
Local Abbreviation M := (@M T E).

(** [get size()] *)
Definition size (w : world T E) : Z := _size (this w).

(** [get empty()] *)
Definition empty (w : world T E) : bool := _size (this w) =? 0.

(** [get front()]; [None] is [undefined]. *)
Definition front (w : world T E) : option T :=
  match _front (this w) with
  | Some a => value <$> links w !! a
  | None => None
  end.

(** [get back()] *)
Definition back (w : world T E) : option T :=
  match _back (this w) with
  | Some a => value <$> links w !! a
  | None => None
  end.

(** [push(value)] *)
Definition push (v : T) : M unit :=
  let* link := new_link (Link None v) in
  let* b := get_back in
  match b with
  | None => set_front (Some link) >> set_back (Some link)
  | Some b => store_next b (Some link) >> set_back (Some link)
  end >>
  let* n := get_size in
  set_size (n + 1).

(** [pop()] *)
Definition pop : M (option T) :=
  let* link := get_front in
  match link with
  | None => ret None
  | Some a =>
      let* l := load a in
      match next l with
      | None => set_front None >> set_back None
      | Some n => set_front (Some n)
      end >>
      let* n := get_size in
      set_size (n - 1) >>
      ret (Some (value l))
  end.

(** The loop of [remove(value)], entered with the current [link] and
    [prev].  On a match the link is cut out and the loop returns. *)
Fixpoint remove_loop `{StrictEq T} (fuel : nat) (x : T)
    (link prev : option loc) : M bool :=
  match fuel with
  | O => fail
  | S fuel' =>
      match link with
      | None => ret false
      | Some a =>
          let* l := load a in
          if strict_eq (value l) x then
            match prev with
            | None => set_front (next l)
            | Some p => store_next p (next l)
            end >>
            let* l' := load a in
            match next l' with
            | None => set_back prev
            | Some _ => ret tt
            end >>
            let* n := get_size in
            set_size (n - 1) >>
            ret true
          else
            remove_loop fuel' x (next l) (Some a)
      end
  end.

(** [remove(value)] *)
Definition remove `{StrictEq T} (fuel : nat) (x : T) : M bool :=
  let* link := get_front in
  remove_loop fuel x link None.

(** The loop of [removeAll(value)], entered with the current [count],
    [link] and [prev]; it hands back the final [count] and [prev]. *)
Fixpoint removeAll_loop `{StrictEq T} (fuel : nat) (x : T) (count : Z)
    (link prev : option loc) : M (Z * option loc) :=
  match fuel with
  | O => fail
  | S fuel' =>
      match link with
      | None => ret (count, prev)
      | Some a =>
          let* l := load a in
          if strict_eq (value l) x then
            let* n := get_size in
            set_size (n - 1) >>
            removeAll_loop fuel' x (count + 1) (next l) prev
          else
            match prev with
            | None => set_front (Some a)
            | Some p => store_next p (Some a)
            end >>
            let* l' := load a in
            removeAll_loop fuel' x count (next l') (Some a)
      end
  end.

(** [removeAll(value)] *)
Definition removeAll `{StrictEq T} (fuel : nat) (x : T) : M Z :=
  let* link := get_front in
  let* r := removeAll_loop fuel x 0 link None in
  match snd r with
  | None => set_front None >> set_back None
  | Some p => store_next p None >> set_back (Some p)
  end >>
  ret (fst r).

(** [clear()] *)
Definition clear : M unit :=
  set_size 0 >> set_front None >> set_back None.

(** [toArray()] *)
Fixpoint toArray_loop (fuel : nat) (i : Z) (link : option loc)
    (result : array T) : M (array T) :=
  match fuel with
  | O => fail
  | S fuel' =>
      match link with
      | None => ret result
      | Some a =>
          let* l := load a in
          toArray_loop fuel' (i + 1) (next l) (array_set i (value l) result)
      end
  end.

Definition toArray (fuel : nat) : M (array T) :=
  let* n := get_size in
  let* result := lift (new_Array n) in
  let* link := get_front in
  toArray_loop fuel 0 link result.

(** A function supplied by the caller.  It sees the value and the index
    and may change anything in the world, the queue included. *)
Definition callback (R : Type) : Type := T -> Z -> world T E -> R * world T E.

(** [some(pred)].  [link.next] is read after the call, as in the source. *)
Fixpoint some_loop (fuel : nat) (pred : callback bool) (i : Z)
    (link : option loc) : M bool :=
  match fuel with
  | O => fail
  | S fuel' =>
      match link with
      | None => ret false
      | Some a =>
          let* l := load a in
          let* b := call (pred (value l) i) in
          if b then ret true
          else let* l' := load a in some_loop fuel' pred (i + 1) (next l')
      end
  end.

Definition some (fuel : nat) (pred : callback bool) : M bool :=
  let* link := get_front in some_loop fuel pred 0 link.

(** [every(pred)] *)
Fixpoint every_loop (fuel : nat) (pred : callback bool) (i : Z)
    (link : option loc) : M bool :=
  match fuel with
  | O => fail
  | S fuel' =>
      match link with
      | None => ret true
      | Some a =>
          let* l := load a in
          let* b := call (pred (value l) i) in
          if negb b then ret false
          else let* l' := load a in every_loop fuel' pred (i + 1) (next l')
      end
  end.

Definition every (fuel : nat) (pred : callback bool) : M bool :=
  let* link := get_front in every_loop fuel pred 0 link.

(** [filter(pred)].  [link.value] is read again after the call. *)
Fixpoint filter_loop (fuel : nat) (pred : callback bool) (i : Z)
    (link : option loc) (result : array T) : M (array T) :=
  match fuel with
  | O => fail
  | S fuel' =>
      match link with
      | None => ret result
      | Some a =>
          let* l := load a in
          let* b := call (pred (value l) i) in
          let* l' := load a in
          filter_loop fuel' pred (i + 1) (next l')
            (if b then array_push (value l') result else result)
      end
  end.

Definition filter (fuel : nat) (pred : callback bool) : M (array T) :=
  let* link := get_front in filter_loop fuel pred 0 link [].

(** [forEach(callback)]; a callback result [None] is [undefined]. *)
Fixpoint forEach_loop {U} (fuel : nat) (cb : callback (option U)) (i : Z)
    (link : option loc) : M (option U) :=
  match fuel with
  | O => fail
  | S fuel' =>
      match link with
      | None => ret None
      | Some a =>
          let* l := load a in
          let* result := call (cb (value l) i) in
          match result with
          | Some u => ret (Some u)
          | None => let* l' := load a in forEach_loop fuel' cb (i + 1) (next l')
          end
      end
  end.

Definition forEach {U} (fuel : nat) (cb : callback (option U)) : M (option U) :=
  let* link := get_front in forEach_loop fuel cb 0 link.

(** [map(callback)].  The array is allocated with [_size] holes before
    the loop, and slot [i] is assigned the result of the call on element
    [i]. *)
Fixpoint map_loop {U} (fuel : nat) (cb : callback U) (i : Z)
    (link : option loc) (result : array U) : M (array U) :=
  match fuel with
  | O => fail
  | S fuel' =>
      match link with
      | None => ret result
      | Some a =>
          let* l := load a in
          let* u := call (cb (value l) i) in
          let* l' := load a in
          map_loop fuel' cb (i + 1) (next l') (array_set i u result)
      end
  end.

Definition map {U} (fuel : nat) (cb : callback U) : M (array U) :=
  let* n := get_size in
  let* result := lift (new_Array n) in
  let* link := get_front in
  map_loop fuel cb 0 link result.

(** [items.forEach(item => this.push(item))]: [Array.prototype.forEach]
    skips the holes of its array. *)
Fixpoint push_items (items : array T) : M unit :=
  match items with
  | [] => ret tt
  | None :: rest => push_items rest
  | Some item :: rest => push item >> push_items rest
  end.

(** The body of [constructor(items?)]; an absent argument is [None]. *)
Definition constructor (items : option (array T)) : M unit :=
  match items with
  | Some items => push_items items
  | None => ret tt
  end.

(** The field initialisers [_size = 0], [_front = null], [_back = null]. *)
Definition initial : Queue := MkQueue 0 None None.

(** [new Queue<T>(items)], evaluated in a world whose receiver becomes
    the new object. *)
Definition new_Queue (items : option (array T)) : M unit :=
  fun w => constructor items (World initial (links w) (env w)).
End Methods.

Arguments M : clear implicits.
Arguments callback : clear implicits.

(** ** Vocabulary of the specification

    The list functions the methods are compared with, and the predicates
    that say what a queue in the store holds. *)
Section Sequences.
Context {A : Type}.

(** The list without its first element satisfying [P]. *)
Fixpoint drop_first (P : A -> bool) (l : list A) : list A :=
  match l with
  | [] => []
  | a :: rest => if P a then rest else a :: drop_first P rest
  end.

End Sequences.

(** *** What a queue holds *)
Section Representation.
Context {T : Type}.
Implicit Types (h : gmap loc (IQueueLink T)) (p q : option loc).
Implicit Types (cells : list (loc * T)) (qu : Queue).

(** [lseg h p cells q]: following [next] from [p] in the store [h] visits
    exactly the links of [cells], each holding its value, and ends at [q]. *)
Fixpoint lseg h p cells q : Prop :=
  match cells with
  | [] => p = q
  | c :: rest =>
      p = Some c.1 /\ exists n, h !! c.1 = Some (Link n c.2) /\ lseg h n rest q
  end.

(** The fields [qu] and the store [h] form a queue made of [cells], front
    first. *)
Definition Abs qu h cells : Prop :=
  lseg h (_front qu) cells None /\
  NoDup cells.*1 /\
  _size qu = Z.of_nat (length cells) /\
  _back qu = last cells.*1.

(** The queue holds the values [vs], front first. *)
Definition holds qu h (vs : list T) : Prop :=
  exists cells, Abs qu h cells /\ cells.*2 = vs.

(** Following [next] from [p] visits exactly the links [locs] and then
    reaches [null]. *)
Fixpoint path h p (locs : list loc) : Prop :=
  match locs with
  | [] => p = None
  | a :: rest => p = Some a /\ exists l, h !! a = Some l /\ path h (next l) rest
  end.

(** [_size] is zero iff [_front] is null iff [_back] is null; the chain
    from [_front] has no repeated link and reaches null after exactly
    [_size] steps; [_back] is the last link of that chain, and its
    [next] is null. *)
Definition Inv qu h : Prop :=
  (_size qu = 0 <-> _front qu = None) /\
  (_front qu = None <-> _back qu = None) /\
  (exists locs,
      path h (_front qu) locs /\ NoDup locs /\
      Z.of_nat (length locs) = _size qu /\ last locs = _back qu) /\
  (forall b, _back qu = Some b -> exists l, h !! b = Some l /\ next l = None).

End Representation.

(** *** Callbacks, traversals and the vocabulary of the loops *)
Section Vocabulary.
Context {T E : Type}.
Implicit Types (w : world T E) (cells : list (loc * T)).

(** A predicate that only looks at the value. *)
Definition pure_pred (p : T -> bool) : callback T E bool :=
  fun v _ w => (p v, w).

(** Calling [cb] on the values [vs] in order, with the indices from [i]
    on, each call starting in the world the previous one left. *)
Fixpoint calls {R} (cb : callback T E R) (i : Z) (vs : list T) w
    : list R * world T E :=
  match vs with
  | [] => ([], w)
  | v :: rest =>
      let (r, w1) := cb v i w in
      let (rs, w2) := calls cb (i + 1) rest w1 in
      (r :: rs, w2)
  end.

(** The same, stopping after the first call whose result [stop]s. *)
Fixpoint visit {R U} (stop : R -> option U) (cb : callback T E R) (i : Z)
    (vs : list T) w : option U * world T E :=
  match vs with
  | [] => (None, w)
  | v :: rest =>
      let (r, w1) := cb v i w in
      match stop r with
      | Some u => (Some u, w1)
      | None => visit stop cb (i + 1) rest w1
      end
  end.

(** How [some] and [every] read the answer of a predicate. *)
Definition on_true (b : bool) : option unit := if b then Some tt else None.
Definition on_false (b : bool) : option unit := if b then None else Some tt.

(** [w'] has the fields of the queue and every link of [cells] as [w] has. *)
Definition untouched cells w w' : Prop :=
  this w' = this w /\ forall a, a ∈ cells.*1 -> links w' !! a = links w !! a.

(** A callback that does not mutate the queue made of [cells]: whatever
    world it is called in, it leaves the fields of the queue and the links
    of [cells] as they were. *)
Definition keeps {R} cells (cb : callback T E R) : Prop :=
  forall v i w, untouched cells w (cb v i w).2.

(** The test of [remove] and [removeAll] on a cell, and its negation. *)
Definition hit `{StrictEq T} (x : T) (c : loc * T) : bool := strict_eq c.2 x.
Definition miss `{StrictEq T} (x : T) (c : loc * T) : bool := negb (hit x c).

(** What the loop of [removeAll] has built when [k] are the cells kept
    so far: [prev] is the last of them, and the chain from [_front]
    runs through them up to [prev], whose [next] is still stale. *)
Definition Kept w (k : list (loc * T)) (prev : option loc) : Prop :=
  prev = last k.*1 /\
  (k = [] \/
   exists k0 p vp np,
     k = k0 ++ [(p, vp)] /\
     lseg (links w) (_front (this w)) k0 (Some p) /\
     links w !! p = Some (Link np vp)).

(** A caller pushing the values [vs] in order. *)
Fixpoint pushes (vs : list T) : M T E unit :=
  match vs with
  | [] => ret tt
  | v :: rest => push v >> pushes rest
  end.

(** A caller popping [n] times, collecting what [pop] returned. *)
Fixpoint pops (n : nat) : M T E (list (option T)) :=
  match n with
  | O => ret []
  | S k => let* r := pop in let* rs := pops k in ret (r :: rs)
  end.

(** Everything a caller can read off a queue without changing it. *)
Definition observe (fuel : nat) w
    : Z * bool * option T * option T * option (array T) :=
  (size w, empty w, front w, back w, fst <$> toArray fuel w).

(** [removeAll] done the other way: collect the values that differ from
    [x] with [filter], build a fresh queue from them, and return how many
    values were left out. *)
Definition removeAll_rebuild `{StrictEq T} (fuel : nat) (x : T) : M T E Z :=
  let* before := get_size in
  let* kept := filter fuel (pure_pred (fun v => negb (strict_eq v x))) in
  new_Queue (Some kept) >>
  let* after := get_size in
  ret (before - after).
End Vocabulary.

(** *** Side-effect-free callbacks, and sequences of method calls *)

(** A caller's choice of one method call, and what the call returned. *)
Inductive op (T : Type) : Type :=
  | Push (v : T)
  | Pop
  | Remove (x : T)
  | RemoveAll (x : T)
  | Clear.
Arguments Push {T} _.
Arguments Pop {T}.
Arguments Remove {T} _.
Arguments RemoveAll {T} _.
Arguments Clear {T}.

Inductive answer (T : Type) : Type :=
  | Done
  | Popped (r : option T)
  | Removed (b : bool)
  | Count (n : Z).
Arguments Done {T}.
Arguments Popped {T} _.
Arguments Removed {T} _.
Arguments Count {T} _.

Section Composition.
Context {T E : Type}.

(** A callback that computes its result from the value and the index and
    touches nothing. *)
Definition pure_cb {R} (f : T -> Z -> R) : callback T E R :=
  fun v i w => (f v i, w).

(** The values paired with their indices, counted from [i]. *)
Fixpoint indexed (i : Z) (vs : list T) : list (T * Z) :=
  match vs with
  | [] => []
  | v :: rest => (v, i) :: indexed (i + 1) rest
  end.

(** The values whose flag is set. *)
Fixpoint chosen (vs : list T) (flags : list bool) : list T :=
  match vs, flags with
  | v :: vs', b :: flags' => if b then v :: chosen vs' flags' else chosen vs' flags'
  | _, _ => []
  end.

(** One method call on the queue of the world. *)
Definition exec `{StrictEq T} (fuel : nat) (o : op T) : M T E (answer T) :=
  match o with
  | Push v => push v >> ret Done
  | Pop => let* r := pop in ret (Popped r)
  | Remove x => let* b := remove fuel x in ret (Removed b)
  | RemoveAll x => let* n := removeAll fuel x in ret (Count n)
  | Clear => clear >> ret Done
  end.

(** A sequence of method calls, collecting what they returned. *)
Fixpoint execs `{StrictEq T} (fuel : nat) (os : list (op T)) : M T E (list (answer T)) :=
  match os with
  | [] => ret []
  | o :: rest =>
      let* r := exec fuel o in
      let* rs := execs fuel rest in
      ret (r :: rs)
  end.

(** The same call on a plain list of values, front first. *)
Definition list_op `{StrictEq T} (o : op T) (vs : list T) : answer T * list T :=
  match o with
  | Push v => (Done, vs ++ [v])
  | Pop => (Popped (head vs), tail vs)
  | Remove x =>
      (Removed (existsb (fun v => strict_eq v x) vs),
       drop_first (fun v => strict_eq v x) vs)
  | RemoveAll x =>
      (Count (Z.of_nat (length (List.filter (fun v => strict_eq v x) vs))),
       List.filter (fun v => negb (strict_eq v x)) vs)
  | Clear => (Done, [])
  end.

Fixpoint list_ops `{StrictEq T} (os : list (op T)) (vs : list T)
    : list (answer T) * list T :=
  match os with
  | [] => ([], vs)
  | o :: rest =>
      let (r, vs1) := list_op o vs in
      let (rs, vs2) := list_ops rest vs1 in
      (r :: rs, vs2)
  end.
End Composition.

(** *** A concrete instance: numbers, and a caller that keeps a log *)

#[export] Instance Z_StrictEq : StrictEq Z := Z.eqb.

(** The empty store with an empty log. *)
Definition nowhere : world Z (list Z) := World initial ∅ [].

(** [new Queue([42, 43, 44, 44, 45])] *)
Definition sample : world Z (list Z) :=
  World (MkQueue 5 (Some 1%positive) (Some 5%positive))
        (list_to_map [(1%positive, Link (Some 2%positive) 42);
                      (2%positive, Link (Some 3%positive) 43);
                      (3%positive, Link (Some 4%positive) 44);
                      (4%positive, Link (Some 5%positive) 44);
                      (5%positive, Link None 45)])
        [].

Definition sample_cells : list (loc * Z) :=
  [(1%positive, 42); (2%positive, 43); (3%positive, 44); (4%positive, 44); (5%positive, 45)].

(** [v => { log.push(v); if (v == 44) return true; }] *)
Definition until_44 : callback Z (list Z) (option bool) :=
  fun v _ w => (if v =? 44 then Some true else None,
                World (this w) (links w) (env w ++ [v])).

(** [(v, i) => { log.push(i); return v > 43; }] *)
Definition above_43 : callback Z (list Z) bool :=
  fun v i w => (43 <? v, World (this w) (links w) (env w ++ [i])).

(** A callback that does mutate the queue: [v => { q.pop(); }] *)
Definition popping : callback Z (list Z) (option bool) :=
  fun _ _ w => (None, match pop w with Some (_, w') => w' | None => w end).

(** A store with two queues: the one of [sample], and a second one made of
    two more links. *)
Definition annex : Queue := MkQueue 2 (Some 6%positive) (Some 7%positive).

Definition annex_cells : list (loc * Z) := [(6%positive, 7); (7%positive, 8)].

Definition shared : world Z (list Z) :=
  World (this sample)
        (<[6%positive := Link (Some 7%positive) 7]>
           (<[7%positive := Link None 8]> (links sample)))
        [].

(** [(v, i) => { log.push(i); return v * 2; }] *)
Definition doubling : callback Z (list Z) Z :=
  fun v i w => (v * 2, World (this w) (links w) (env w ++ [i])).

(** * Proofs *)

(** ** Lists *)
Section SequenceFacts.
Context {A : Type}.
Implicit Types (P : A -> bool) (l : list A).

Lemma drop_first_none P l : existsb P l = false -> drop_first P l = l.
Proof.
  induction l as [|a l IH]; simpl; [reflexivity|].
  destruct (P a); simpl; [discriminate|]. intros H. rewrite IH; auto.
Qed.

Lemma drop_first_split P l :
  existsb P l = true ->
  exists pre a post,
    l = pre ++ a :: post /\ P a = true /\ existsb P pre = false /\
    drop_first P l = pre ++ post.
Proof.
  induction l as [|a l IH]; simpl; [discriminate|].
  destruct (P a) eqn:Ha; simpl.
  - intros _. exists [], a, l. auto.
  - intros H. destruct (IH H) as (pre & b & post & -> & Hb & Hpre & ->).
    exists (a :: pre), b, post. simpl. rewrite Ha. auto.
Qed.

End SequenceFacts.

Lemma drop_first_fmap {A B} (f : A -> B) (P : B -> bool) (l : list A) :
  f <$> drop_first (fun a => P (f a)) l = drop_first P (f <$> l).
Proof.
  induction l as [|a l IH]; simpl; [reflexivity|].
  destruct (P (f a)); simpl; [reflexivity | f_equal; exact IH].
Qed.

Lemma existsb_fmap {A B} (f : A -> B) (P : B -> bool) (l : list A) :
  existsb (fun a => P (f a)) l = existsb P (f <$> l).
Proof. induction l as [|a l IH]; simpl; [reflexivity | rewrite IH; reflexivity]. Qed.

Lemma filter_elem_of {A} (P : A -> bool) (l : list A) a :
  a ∈ List.filter P l -> a ∈ l.
Proof.
  induction l as [|b l IH]; simpl; [tauto|].
  destruct (P b); [rewrite !elem_of_cons; tauto | right; auto].
Qed.

Lemma filter_NoDup_fst {A B} (P : A * B -> bool) (l : list (A * B)) :
  NoDup l.*1 -> NoDup (List.filter P l).*1.
Proof.
  induction l as [|c l IH]; simpl; [tauto|].
  intros [Hc Hl]%NoDup_cons. destruct (P c); simpl; [|auto].
  apply NoDup_cons. split; [|auto].
  intros Hin. apply Hc. apply list_elem_of_fmap in Hin as (c' & -> & Hin).
  apply list_elem_of_fmap_2. eapply filter_elem_of. exact Hin.
Qed.

Lemma filter_split_length {A} (P : A -> bool) (l : list A) :
  (length (List.filter P l) + length (List.filter (fun a => negb (P a)) l) = length l)%nat.
Proof.
  induction l as [|a l IH]; simpl; [reflexivity|].
  destruct (P a); simpl; lia.
Qed.

Lemma filter_sublist {A} (P : A -> bool) (l : list A) :
  List.filter P l `sublist_of` l.
Proof.
  induction l as [|a l IH]; simpl; [constructor|].
  destruct (P a); [apply sublist_skip | apply sublist_cons]; exact IH.
Qed.

Lemma filter_Forall {A} (P : A -> bool) (l : list A) :
  Forall (fun a => P a = true) (List.filter P l).
Proof.
  induction l as [|a l IH]; simpl; [constructor|].
  destruct (P a) eqn:Ha; [constructor; assumption | exact IH].
Qed.

Lemma filter_none {A} (P : A -> bool) (l : list A) :
  Forall (fun a => P a = false) l -> List.filter P l = [].
Proof.
  induction 1 as [|a l Ha _ IH]; simpl; [reflexivity|]. rewrite Ha. exact IH.
Qed.

Lemma filter_all {A} (P : A -> bool) (l : list A) :
  Forall (fun a => P a = true) l -> List.filter P l = l.
Proof.
  induction 1 as [|a l Ha _ IH]; simpl; [reflexivity|]. rewrite Ha, IH. reflexivity.
Qed.

Lemma filter_fmap {A B} (f : A -> B) (P : B -> bool) (l : list A) :
  f <$> List.filter (fun a => P (f a)) l = List.filter P (f <$> l).
Proof.
  induction l as [|a l IH]; simpl; [reflexivity|].
  destruct (P (f a)); simpl; [f_equal|]; exact IH.
Qed.

Lemma filter_length_le {A} (P : A -> bool) (l : list A) :
  (length (List.filter P l) <= length l)%nat.
Proof.
  induction l as [|a l IH]; simpl; [lia|]. destruct (P a); simpl; lia.
Qed.

Lemma drop_first_length_le {A} (P : A -> bool) (l : list A) :
  (length (drop_first P l) <= length l)%nat.
Proof.
  induction l as [|a l IH]; simpl; [lia|]. destruct (P a); simpl; lia.
Qed.

Lemma filter_twice_neg {A} (P : A -> bool) (l : list A) :
  List.filter P (List.filter (fun a => negb (P a)) l) = [].
Proof.
  induction l as [|a l IH]; simpl; [reflexivity|].
  destruct (P a) eqn:Ha; simpl; [exact IH | rewrite Ha; exact IH].
Qed.

Lemma filter_twice_same {A} (P : A -> bool) (l : list A) :
  List.filter P (List.filter P l) = List.filter P l.
Proof.
  induction l as [|a l IH]; simpl; [reflexivity|].
  destruct (P a) eqn:Ha; simpl; [rewrite Ha, IH; reflexivity | exact IH].
Qed.

Lemma existsb_filter_neg {A} (P : A -> bool) (l : list A) :
  existsb P (List.filter (fun a => negb (P a)) l) = false.
Proof.
  induction l as [|a l IH]; simpl; [reflexivity|].
  destruct (P a) eqn:Ha; simpl; [exact IH | rewrite Ha; exact IH].
Qed.

Lemma forallb_negb_existsb {A} (g : A -> bool) (l : list A) :
  forallb g l = negb (existsb (fun a => negb (g a)) l).
Proof.
  induction l as [|a l IH]; simpl; [reflexivity|].
  rewrite IH. destruct (g a); reflexivity.
Qed.

Lemma omap_id_length {A} (l : list (option A)) :
  (length (omap id l) <= length l)%nat.
Proof.
  induction l as [|o l IH]; [reflexivity|].
  change (omap id (o :: l)) with (match o with Some a => a :: omap id l | None => omap id l end).
  destruct o; simpl length; lia.
Qed.

Lemma omap_id_dense {A} (l : list (option A)) :
  Forall is_Some l -> Some <$> omap id l = l.
Proof.
  induction 1 as [|o l [a ->] _ IH]; [reflexivity|].
  change (Some <$> omap id (Some a :: l)) with (Some a :: (Some <$> omap id l)).
  rewrite IH. reflexivity.
Qed.

(** ** Chains in the store *)
Section Chains.
Context {T : Type}.
Implicit Types (h : gmap loc (IQueueLink T)) (p q : option loc).
Implicit Types (cells : list (loc * T)) (qu : Queue).

Lemma lseg_app h p c1 c2 q :
  lseg h p (c1 ++ c2) q <-> exists m, lseg h p c1 m /\ lseg h m c2 q.
Proof.
  revert p. induction c1 as [|c c1 IH]; intros p; simpl.
  - split; [intros Hs; exists p; split; [reflexivity | exact Hs] |].
    intros (m & -> & Hs). exact Hs.
  - split.
    + intros (-> & n & Hl & Hs). apply IH in Hs as (m & H1 & H2).
      exists m. split; [|exact H2]. split; [reflexivity|]. eauto.
    + intros (m & (-> & n & Hl & H1) & H2). split; [reflexivity|].
      exists n. split; [exact Hl|]. apply IH. eauto.
Qed.

Lemma lseg_frame h h' p cells q :
  (forall a, a ∈ cells.*1 -> h' !! a = h !! a) ->
  lseg h p cells q -> lseg h' p cells q.
Proof.
  revert p. induction cells as [|c rest IH]; intros p Hf; simpl; [tauto|].
  intros (-> & n & Hl & Hs). split; [reflexivity|]. exists n. split.
  - rewrite Hf; [exact Hl | simpl; left].
  - apply IH; [|exact Hs]. intros a Ha. apply Hf. simpl. right. exact Ha.
Qed.

Lemma lseg_insert h p cells q a l :
  a ∉ cells.*1 -> lseg h p cells q -> lseg (<[a := l]> h) p cells q.
Proof.
  intros Hn. apply lseg_frame. intros b Hb.
  apply lookup_insert_ne. intros ->. contradiction.
Qed.

Lemma lseg_dom h p cells q a :
  lseg h p cells q -> a ∈ cells.*1 -> a ∈ dom h.
Proof.
  revert p. induction cells as [|c rest IH]; intros p; simpl.
  - intros _ Ha. inversion Ha.
  - intros (-> & n & Hl & Hs) Ha. apply elem_of_cons in Ha as [-> | Ha].
    + apply elem_of_dom. eauto.
    + eapply IH; eauto.
Qed.

Lemma lseg_null h cells q : lseg h None cells q -> cells = [] /\ q = None.
Proof. destruct cells; simpl; [intros <-; tauto | intros [? _]; discriminate]. Qed.

Lemma lseg_start h p cells q :
  lseg h p cells q -> p = match cells with [] => q | c :: _ => Some c.1 end.
Proof. destruct cells; simpl; [tauto | intros [-> _]; reflexivity]. Qed.

Lemma last_app_cons_ne (l : list loc) a b k :
  last (l ++ a :: b :: k) = last (l ++ b :: k).
Proof. rewrite !last_app. reflexivity. Qed.

Lemma lseg_path h p cells : lseg h p cells None -> path h p cells.*1.
Proof.
  revert p. induction cells as [|c rest IH]; intros p; simpl; [tauto|].
  intros (-> & n & Hl & Hs). split; [reflexivity|]. eauto.
Qed.

Lemma path_lseg h p locs :
  path h p locs -> exists cells, cells.*1 = locs /\ lseg h p cells None.
Proof.
  revert p. induction locs as [|a rest IH]; intros p; simpl.
  - intros ->. exists []. split; reflexivity.
  - intros (-> & [n v] & Hl & Hp). destruct (IH _ Hp) as (cells & <- & Hs).
    exists ((a, v) :: cells). simpl. split; [reflexivity|]. split; [reflexivity|]. eauto.
Qed.

Lemma Abs_Inv qu h cells : Abs qu h cells -> Inv qu h.
Proof.
  intros (Hs & Hnd & Hn & Hb). unfold Inv.
  split; [|split; [|split]].
  - rewrite Hn. destruct cells as [|c rest]; simpl in *.
    + tauto.
    + destruct Hs as [-> _]. split; [lia | discriminate].
  - rewrite Hb. destruct cells as [|c rest] using rev_ind; simpl in *.
    + tauto.
    + rewrite fmap_snoc, last_snoc. apply lseg_start in Hs.
      destruct (rest ++ [c]) eqn:Heq; [destruct rest; discriminate|].
      rewrite Hs. split; discriminate.
  - exists cells.*1. rewrite length_fmap. auto using lseg_path.
  - intros b Hbb. rewrite Hbb in Hb. symmetry in Hb.
    apply last_Some in Hb as (l' & Hl').
    destruct cells as [|[b' v] rest _] using rev_ind.
    + destruct l'; discriminate.
    + rewrite fmap_snoc in Hl'. apply app_inj_tail in Hl' as [_ Heq].
      simpl in Heq. subst b'.
      apply lseg_app in Hs as (m & _ & Hs). simpl in Hs.
      destruct Hs as (_ & n & Hl & ->). eauto.
Qed.

Lemma Inv_Abs qu h : Inv qu h -> exists cells, Abs qu h cells.
Proof.
  intros (_ & _ & (locs & Hp & Hnd & Hn & Hb) & _).
  apply path_lseg in Hp as (cells & <- & Hs).
  exists cells. rewrite length_fmap in Hn. repeat split; auto.
Qed.

End Chains.

(** ** The methods on well-formed queues *)
Section Proofs.
Context {T E : Type}.
Implicit Types (w : world T E) (cells : list (loc * T)).

Lemma push_spec w v cells :
  Abs (this w) (links w) cells ->
  exists w',
    push v w = Some (tt, w') /\
    Abs (this w') (links w') (cells ++ [(fresh (dom (links w)), v)]) /\
    env w' = env w /\
    (forall a, a ∈ dom (links w) -> a ∉ cells.*1 ->
               links w' !! a = links w !! a) /\
    (forall a, a ∈ dom (links w) -> a ∈ dom (links w')).
Proof.
  intros (Hs & Hnd & Hn & Hb).
  unfold push, bind, new_link, get_back, get_size, set_size. simpl.
  pose proof (is_fresh (dom (links w))) as Hfresh.
  set (a := fresh (dom (links w))) in *. clearbody a.
  assert (Hna : a ∉ cells.*1).
  { intros Hin. apply Hfresh. eapply lseg_dom; eauto. }
  induction cells as [|[b vb] cs _] using rev_ind.
  - simpl in *. rewrite Hb. simpl. eexists. split; [reflexivity|].
    simpl. repeat split.
    + exists None. split; [apply lookup_insert_eq | reflexivity].
    + apply NoDup_singleton.
    + simpl. lia.
    + intros a0 Ha0 _. apply lookup_insert_ne. intros <-. contradiction.
    + intros a0 Ha0. rewrite dom_insert. apply elem_of_union. right. exact Ha0.
  - rewrite fmap_snoc, last_snoc in Hb. simpl in Hb. rewrite Hb.
    rewrite fmap_snoc in Hnd, Hna. simpl in Hnd, Hna.
    apply lseg_app in Hs as (m & Hs1 & Hs2). simpl in Hs2.
    destruct Hs2 as (-> & n & Hlb & ->).
    apply NoDup_app in Hnd as (Hnd1 & Hnd2 & _).
    apply not_elem_of_app in Hna as [Hna1 Hna2].
    assert (Hab : a ≠ b) by (intros ->; apply Hna2; left).
    assert (Hb1 : b ∉ cs.*1) by (intros Hin; apply (Hnd2 b Hin); left).
    unfold store_next. simpl. rewrite lookup_insert_ne by exact Hab.
    rewrite Hlb. simpl. eexists. split; [reflexivity|]. simpl. repeat split.
    + rewrite <- app_assoc. apply lseg_app. exists (Some b). split.
      * apply lseg_insert; [exact Hb1|].
        apply lseg_insert; [exact Hna1|]. exact Hs1.
      * simpl. split; [reflexivity|]. exists (Some a). split; [apply lookup_insert_eq|].
        simpl. split; [reflexivity|]. exists None. split; [|reflexivity].
        rewrite lookup_insert_ne by congruence. apply lookup_insert_eq.
    + rewrite !fmap_snoc. simpl. apply NoDup_app. repeat split.
      * apply NoDup_app. repeat split; [exact Hnd1 | exact Hnd2 | apply NoDup_singleton].
      * intros x Hx Hx'. apply list_elem_of_singleton in Hx' as ->.
        apply elem_of_app in Hx as [Hx | Hx]; [contradiction|].
        apply list_elem_of_singleton in Hx. congruence.
      * apply NoDup_singleton.
    + simpl. rewrite Hn. rewrite !length_app. simpl. lia.
    + simpl. rewrite !fmap_snoc, last_snoc. reflexivity.
    + intros a0 Ha0 Hne. rewrite lookup_insert_ne.
      * apply lookup_insert_ne. intros <-. contradiction.
      * intros <-. apply Hne. rewrite fmap_snoc. apply elem_of_app. right. left.
    + intros a0 Ha0. rewrite !dom_insert. apply elem_of_union. right.
      apply elem_of_union. right. exact Ha0.
Qed.

Lemma pop_spec w cells :
  Abs (this w) (links w) cells ->
  exists w',
    pop w = Some (head cells.*2, w') /\
    Abs (this w') (links w') (tail cells) /\
    links w' = links w /\ env w' = env w /\
    (cells = [] -> w' = w).
Proof.
  intros (Hs & Hnd & Hn & Hb).
  unfold pop, bind, get_front, load, get_size, set_size, ret.
  destruct cells as [|[a v] rest]; simpl in *.
  - rewrite Hs. exists w. repeat split; assumption.
  - destruct Hs as (Hf & n & Hl & Hs). rewrite Hf, Hl. simpl.
    apply NoDup_cons in Hnd as [Hna Hnd].
    destruct n as [n|]; simpl.
    + eexists. split; [reflexivity|]. simpl.
      split; [|split; [reflexivity | split; [reflexivity | discriminate]]].
      repeat split; simpl; [exact Hs | exact Hnd | lia |].
      destruct rest as [|c rest]; [discriminate Hs|].
      rewrite Hb. reflexivity.
    + eexists. split; [reflexivity|]. simpl.
      split; [|split; [reflexivity | split; [reflexivity | discriminate]]].
      apply lseg_null in Hs as [-> _].
      repeat split; simpl in *; [exact Hnd | lia].
Qed.

Lemma clear_spec w :
  exists w', clear w = Some (tt, w') /\ Abs (this w') (links w') [] /\
             links w' = links w /\ env w' = env w.
Proof.
  eexists. split; [reflexivity|]. simpl. repeat split. constructor.
Qed.

Lemma toArray_loop_spec cs :
  forall (pre : list T) fuel w link,
    lseg (links w) link cs None ->
    (length cs < fuel)%nat ->
    toArray_loop fuel (Z.of_nat (length pre)) link
      ((Some <$> pre) ++ replicate (length cs) None) w =
      Some (Some <$> (pre ++ cs.*2), w).
Proof.
  induction cs as [|[a v] cs IH]; intros pre fuel w link Hl Hf;
    (destruct fuel as [|fuel]; [simpl in Hf; lia|]).
  - simpl in *. subst link. rewrite !app_nil_r. reflexivity.
  - simpl in Hl. destruct Hl as (-> & n & Hla & Hcs).
    simpl. unfold bind, load. rewrite Hla. simpl.
    replace (Z.of_nat (length pre) + 1) with (Z.of_nat (length (pre ++ [v])))
      by (rewrite length_app; simpl; lia).
    replace (array_set (Z.of_nat (length pre)) v
               ((Some <$> pre) ++ None :: replicate (length cs) None))
      with ((Some <$> (pre ++ [v])) ++ replicate (length cs) None).
    + rewrite IH; [|exact Hcs|simpl in Hf; lia]. rewrite <- app_assoc. reflexivity.
    + unfold array_set. rewrite Nat2Z.id.
      assert (Hlt : (length pre <? length ((Some <$> pre) ++ None :: replicate (length cs) None))%nat = true).
      { apply Nat.ltb_lt. rewrite length_app, length_fmap. simpl. lia. }
      rewrite Hlt. rewrite insert_app_r_alt by (rewrite length_fmap; lia).
      rewrite length_fmap, Nat.sub_diag. simpl.
      rewrite fmap_app, <- app_assoc. reflexivity.
Qed.

Lemma toArray_run w cells fuel :
  Abs (this w) (links w) cells ->
  (length cells < fuel)%nat ->
  toArray fuel w = Some (Some <$> cells.*2, w).
Proof.
  intros (Hs & _ & Hn & _) Hf. unfold toArray, bind, get_size, lift, get_front, new_Array.
  rewrite Hn. destruct (Z.of_nat (length cells) <? 0) eqn:Hneg; [lia|].
  rewrite Nat2Z.id.
  exact (toArray_loop_spec cells [] fuel w _ Hs Hf).
Qed.

(** What the getters return on a well-formed queue. *)
Lemma getters w cells :
  Abs (this w) (links w) cells ->
  size w = Z.of_nat (length cells.*2) /\
  empty w = bool_decide (cells.*2 = []) /\
  front w = head cells.*2 /\
  back w = last cells.*2.
Proof.
  intros (Hs & _ & Hn & Hb). unfold size, empty, front, back.
  rewrite length_fmap. split; [exact Hn|]. split; [|split].
  - rewrite Hn. destruct cells; reflexivity.
  - destruct cells as [|[a v] cells]; simpl in *; [rewrite Hs; reflexivity|].
    destruct Hs as (-> & n & -> & _). reflexivity.
  - rewrite Hb. induction cells as [|[a v] cells _] using rev_ind; [reflexivity|].
    rewrite !fmap_snoc, !last_snoc. simpl.
    apply lseg_app in Hs as (m & _ & Hs). simpl in Hs.
    destruct Hs as (_ & n & -> & _). reflexivity.
Qed.

Lemma push_items_spec items :
  forall w cells,
    Abs (this w) (links w) cells ->
    exists w' new,
      push_items items w = Some (tt, w') /\
      Abs (this w') (links w') (cells ++ new) /\
      new.*2 = omap id items /\
      env w' = env w /\
      (forall a, a ∈ dom (links w) -> a ∉ cells.*1 ->
                 links w' !! a = links w !! a) /\
      (forall a, a ∈ dom (links w) -> a ∈ dom (links w')).
Proof.
  induction items as [|[v|] items IH]; intros w cells HA; simpl.
  - exists w, []. rewrite app_nil_r. unfold ret.
    split; [reflexivity|]. split; [exact HA|]. repeat split; auto.
  - destruct (push_spec w v cells HA) as (w1 & Hrun & HA1 & He1 & Hfr1 & Hdom1).
    destruct (IH w1 _ HA1) as (w2 & new & Hrun2 & HA2 & Hnew & He2 & Hfr2 & Hdom2).
    exists w2, ((fresh (dom (links w)), v) :: new).
    unfold bind. rewrite Hrun, Hrun2. rewrite <- app_assoc in HA2. simpl in HA2.
    split; [reflexivity|]. split; [exact HA2|]. split; [simpl; f_equal; exact Hnew|].
    split; [congruence|]. split.
    + intros a Ha Hna. rewrite Hfr2, Hfr1; auto.
      rewrite fmap_snoc. intros [Hin | Hin]%elem_of_app; [contradiction|].
      apply list_elem_of_singleton in Hin. simpl in Hin. subst a.
      exact (is_fresh (dom (links w)) Ha).
    + auto.
  - apply IH. exact HA.
Qed.

Lemma omap_id_Some (vs : list T) : omap id (Some <$> vs) = vs.
Proof. induction vs as [|v vs IH]; simpl; [reflexivity | f_equal; exact IH]. Qed.

(** [new Queue(items)] in any world: the new queue holds the items that
    are not holes, and no link that was there before is changed. *)
Lemma new_Queue_spec items w :
  exists w' cells,
    new_Queue items w = Some (tt, w') /\
    Abs (this w') (links w') cells /\
    cells.*2 = from_option (omap id) [] items /\
    env w' = env w /\
    (forall a, a ∈ dom (links w) -> links w' !! a = links w !! a).
Proof.
  unfold new_Queue, constructor.
  assert (HA : Abs (this (World initial (links w) (env w)))
                   (links (World initial (links w) (env w))) []).
  { repeat split; simpl. apply NoDup_nil_2. }
  destruct items as [items|].
  - destruct (push_items_spec items _ _ HA) as (w' & new & Hrun & HA' & Hnew & He & Hfr & _).
    exists w', new. simpl in *.
    split; [exact Hrun|]. split; [exact HA'|]. repeat split; auto.
    intros a Ha. apply Hfr; [exact Ha|]. intros Hin. inversion Hin.
  - eexists _, []. split; [reflexivity|]. split; [exact HA|]. simpl. auto.
Qed.

Lemma filter_loop_pure p cs :
  forall acc fuel i link w,
    lseg (links w) link cs None ->
    (length cs < fuel)%nat ->
    filter_loop fuel (pure_pred p) i link acc w =
      Some (acc ++ (Some <$> List.filter p cs.*2), w).
Proof.
  induction cs as [|[a v] cs IH]; intros acc fuel i link w Hl Hf;
    (destruct fuel as [|fuel]; [simpl in Hf; lia|]).
  - simpl in *. subst link. rewrite app_nil_r. reflexivity.
  - simpl in Hl. destruct Hl as (-> & n & Hla & Hcs).
    simpl. unfold bind, load, call. rewrite Hla. simpl. rewrite Hla. simpl.
    rewrite IH; [|exact Hcs|simpl in Hf; lia].
    destruct (p v); simpl; [|reflexivity].
    unfold array_push. rewrite <- app_assoc. reflexivity.
Qed.

Lemma untouched_refl cells w : untouched cells w w.
Proof. split; auto. Qed.

Lemma untouched_trans cells w1 w2 w3 :
  untouched cells w1 w2 -> untouched cells w2 w3 -> untouched cells w1 w3.
Proof.
  intros [H1 H2] [H3 H4]. split; [congruence|].
  intros a Ha. rewrite H4, H2; auto.
Qed.

Lemma untouched_Abs cells w w' :
  untouched cells w w' -> Abs (this w) (links w) cells -> Abs (this w') (links w') cells.
Proof.
  intros [Ht Hl] (Hs & Hrest). rewrite Ht. split; [|exact Hrest].
  eapply lseg_frame; [|exact Hs]. exact Hl.
Qed.

Lemma visit_untouched {R U} (stop : R -> option U) cells cb vs :
  keeps cells cb -> forall i w, untouched cells w (visit stop cb i vs w).2.
Proof.
  intros Hk. induction vs as [|v vs IH]; intros i w; simpl.
  - apply untouched_refl.
  - specialize (Hk v i w). destruct (cb v i w) as [r w1]. simpl in Hk.
    destruct (stop r); simpl; [exact Hk|].
    eapply untouched_trans; [exact Hk | apply IH].
Qed.

(** The first call that stops is the [k]-th; the world is the one that
    call left. *)
Lemma visit_stop {R U} (stop : R -> option U) cb vs :
  forall i w k v rs w1 r u w2,
    vs !! k = Some v ->
    calls cb i (take k vs) w = (rs, w1) ->
    Forall (fun r => stop r = None) rs ->
    cb v (i + Z.of_nat k) w1 = (r, w2) ->
    stop r = Some u ->
    visit stop cb i vs w = (Some u, w2).
Proof.
  induction vs as [|v0 vs IH]; intros i w k v rs w1 r u w2 Hk Hc Hrs Hcb Hst.
  - inversion Hk.
  - destruct k as [|k]; simpl in *.
    + injection Hk as ->. injection Hc as <- <-. rewrite Z.add_0_r in Hcb.
      rewrite Hcb, Hst. reflexivity.
    + destruct (cb v0 i w) as [r0 w0].
      destruct (calls cb (i + 1) (take k vs) w0) as [rs0 w0'] eqn:Hc0.
      injection Hc as <- <-. apply Forall_cons in Hrs as [Hr0 Hrs]. rewrite Hr0.
      eapply IH; eauto. rewrite <- Hcb. f_equal. lia.
Qed.

(** No call stops; the world is the one the last call left. *)
Lemma visit_all {R U} (stop : R -> option U) cb vs :
  forall i w rs w',
    calls cb i vs w = (rs, w') ->
    Forall (fun r => stop r = None) rs ->
    visit stop cb i vs w = (None, w').
Proof.
  induction vs as [|v0 vs IH]; intros i w rs w' Hc Hrs; simpl in *.
  - injection Hc as <- <-. reflexivity.
  - destruct (cb v0 i w) as [r0 w0].
    destruct (calls cb (i + 1) vs w0) as [rs0 w0'] eqn:Hc0.
    injection Hc as <- <-. apply Forall_cons in Hrs as [Hr0 Hrs]. rewrite Hr0.
    eapply IH; eauto.
Qed.

(** One turn of a traversal loop on a non-empty chain: the link is read,
    the callback runs and leaves the chain alone, and either the loop
    returns or it goes on from [next]. *)
Ltac traversal_turn Hk Hsub Hl Hf IH cb :=
  let n := fresh "n" in
  let Hla := fresh "Hla" in
  let Hcs := fresh "Hcs" in
  let Hun := fresh "Hun" in
  let r := fresh "r" in
  let w1 := fresh "w1" in
  simpl in Hl; destruct Hl as (-> & n & Hla & Hcs);
  simpl; unfold bind at 1; unfold load at 1; rewrite Hla; simpl;
  unfold bind at 1; unfold call at 1;
  match goal with
  | |- context [cb ?v ?i ?w] =>
      pose proof (Hk v i w) as [_ Hun]; destruct (cb v i w) as [r w1]
  end;
  simpl in Hun;
  destruct r; simpl; try reflexivity;
  unfold bind at 1; unfold load at 1;
  rewrite Hun, Hla by (apply Hsub; left); simpl;
  apply IH;
  [ intros ? ?; apply Hsub; right; assumption
  | eapply lseg_frame; [|exact Hcs]; intros ? ?; apply Hun, Hsub; right; assumption
  | simpl in Hf; lia ].

Lemma some_loop_visit all pred cs :
  keeps all pred ->
  (forall a, a ∈ cs.*1 -> a ∈ all.*1) ->
  forall fuel i link w,
    lseg (links w) link cs None ->
    (length cs < fuel)%nat ->
    some_loop fuel pred i link w =
      Some (let (r, w') := visit on_true pred i cs.*2 w in (bool_decide (r = Some tt), w')).
Proof.
  intros Hk. induction cs as [|[a v] cs IH]; intros Hsub fuel i link w Hl Hf;
    (destruct fuel as [|fuel]; [simpl in Hf; lia|]).
  - simpl in *. subst link. reflexivity.
  - traversal_turn Hk Hsub Hl Hf IH pred.
Qed.

Lemma every_loop_visit all pred cs :
  keeps all pred ->
  (forall a, a ∈ cs.*1 -> a ∈ all.*1) ->
  forall fuel i link w,
    lseg (links w) link cs None ->
    (length cs < fuel)%nat ->
    every_loop fuel pred i link w =
      Some (let (r, w') := visit on_false pred i cs.*2 w in (bool_decide (r = None), w')).
Proof.
  intros Hk. induction cs as [|[a v] cs IH]; intros Hsub fuel i link w Hl Hf;
    (destruct fuel as [|fuel]; [simpl in Hf; lia|]).
  - simpl in *. subst link. reflexivity.
  - traversal_turn Hk Hsub Hl Hf IH pred.
Qed.

Lemma forEach_loop_visit {U} all (cb : callback T E (option U)) cs :
  keeps all cb ->
  (forall a, a ∈ cs.*1 -> a ∈ all.*1) ->
  forall fuel i link w,
    lseg (links w) link cs None ->
    (length cs < fuel)%nat ->
    forEach_loop fuel cb i link w = Some (visit (fun r => r) cb i cs.*2 w).
Proof.
  intros Hk. induction cs as [|[a v] cs IH]; intros Hsub fuel i link w Hl Hf;
    (destruct fuel as [|fuel]; [simpl in Hf; lia|]).
  - simpl in *. subst link. reflexivity.
  - traversal_turn Hk Hsub Hl Hf IH cb.
Qed.

Section Remove.
Context `{StrictEq T}.
Variable x : T.

(** Cutting the link [a] out of the chain, as [remove] does on a match. *)
Lemma unlink_spec pre a v cs w n prev :
  Abs (this w) (links w) (pre ++ (a, v) :: cs) ->
  links w !! a = Some (Link n v) ->
  prev = last pre.*1 ->
  exists w',
    (match prev with
     | Some p => store_next p n
     | None => set_front n
     end >>
     let* l' := load a in
     match next l' with
     | Some _ => ret tt
     | None => set_back prev
     end >>
     let* k := get_size in set_size (k - 1) >> ret true) w = Some (true, w') /\
    Abs (this w') (links w') (pre ++ cs) /\
    env w' = env w.
Proof.
  intros (Hs & Hnd & Hn & Hb) Hla ->.
  apply lseg_app in Hs as (m & Hpre & Hs). simpl in Hs.
  destruct Hs as (-> & n' & Hla' & Hcs). rewrite Hla in Hla'.
  injection Hla' as <-.
  rewrite fmap_app in Hnd. simpl in Hnd.
  apply NoDup_app in Hnd as (Hnd1 & Hnd2 & Hnd3).
  apply NoDup_cons in Hnd3 as [Hna Hnd3].
  rewrite length_app in Hn. simpl in Hn.
  rewrite fmap_app in Hb. simpl in Hb.
  assert (Hback : cs ≠ [] -> _back (this w) = last (pre ++ cs).*1).
  { intros Hne. rewrite Hb, fmap_app. destruct cs as [|c cs]; [congruence|].
    simpl. apply last_app_cons_ne. }
  induction pre as [|[p vp] pre0 _] using rev_ind.
  - simpl in *. unfold bind, set_front, load, get_size, set_size, ret. simpl.
    rewrite Hla. simpl. destruct n as [n|]; simpl.
    + eexists. split; [reflexivity|]. simpl. split; [|reflexivity].
      repeat split; simpl; [exact Hcs | exact Hnd3 | lia |].
      apply Hback. intros ->. discriminate Hcs.
    + apply lseg_null in Hcs as [-> _].
      eexists. split; [reflexivity|]. simpl. split; [|reflexivity].
      repeat split; simpl in *; [apply NoDup_nil_2 | lia].
  - rewrite fmap_snoc, last_snoc. simpl.
    apply lseg_app in Hpre as (m & Hpre0 & Hp). simpl in Hp.
    destruct Hp as (-> & np & Hlp & Hnp). simpl in Hnp. subst np.
    rewrite fmap_snoc in Hnd1, Hnd2. simpl in Hnd1, Hnd2.
    apply NoDup_app in Hnd1 as (Hnd0 & Hndp & _).
    assert (Hpa : p ≠ a).
    { intros ->. apply (Hnd2 a); [apply elem_of_app; right; left | left]. }
    assert (Hp0 : p ∉ pre0.*1) by (intros Hin; apply (Hndp p Hin); left).
    assert (Hpc : p ∉ cs.*1).
    { intros Hin. apply (Hnd2 p); [apply elem_of_app; right; left | right; exact Hin]. }
    unfold bind, store_next, load, get_size, set_size, ret. simpl.
    rewrite Hlp. simpl. rewrite lookup_insert_ne by exact Hpa. rewrite Hla. simpl.
    assert (Hseg : lseg (<[p := Link n vp]> (links w)) (_front (this w))
                     ((pre0 ++ [(p, vp)]) ++ cs) None).
    { rewrite <- app_assoc. apply lseg_app. exists (Some p). split.
      - apply lseg_insert; assumption.
      - simpl. split; [reflexivity|]. exists n. split; [apply lookup_insert_eq|].
        apply lseg_insert; assumption. }
    assert (Hnd' : NoDup ((pre0 ++ [(p, vp)]) ++ cs).*1).
    { rewrite fmap_app, fmap_snoc. simpl. apply NoDup_app. repeat split.
      - apply NoDup_app. repeat split; [exact Hnd0 | exact Hndp | apply NoDup_singleton].
      - intros y Hy Hy'. apply (Hnd2 y Hy). right. exact Hy'.
      - exact Hnd3. }
    destruct n as [n|]; simpl.
    + eexists. split; [reflexivity|]. simpl. split; [|reflexivity].
      repeat split; simpl; [exact Hseg | exact Hnd' | rewrite length_app; lia |].
      apply Hback. intros ->. discriminate Hcs.
    + apply lseg_null in Hcs as [-> _].
      eexists. split; [reflexivity|]. simpl. split; [|reflexivity].
      repeat split; simpl; [exact Hseg | exact Hnd' | rewrite length_app; simpl in *; lia |].
      rewrite app_nil_r, fmap_snoc, last_snoc. reflexivity.
Qed.

Lemma remove_loop_spec cs :
  forall pre fuel w link prev,
    Abs (this w) (links w) (pre ++ cs) ->
    lseg (links w) link cs None ->
    prev = last pre.*1 ->
    (length cs < fuel)%nat ->
    exists w',
      remove_loop fuel x link prev w = Some (existsb (hit x) cs, w') /\
      Abs (this w') (links w') (pre ++ drop_first (hit x) cs) /\
      env w' = env w /\
      (existsb (hit x) cs = false -> w' = w).
Proof.
  induction cs as [|[a v] cs IH]; intros pre fuel w link prev HA Hl Hp Hf;
    (destruct fuel as [|fuel]; [simpl in Hf; lia|]).
  - simpl in Hl. subst link. simpl. exists w. auto.
  - simpl in Hl. destruct Hl as (-> & n & Hla & Hcs).
    simpl. unfold bind at 1. unfold load at 1. rewrite Hla. simpl.
    change ((hit x) (a, v)) with (strict_eq v x).
    destruct (strict_eq v x) eqn:Hv; simpl.
    + destruct (unlink_spec pre a v cs w n prev HA Hla Hp) as (w' & Hrun & HA' & He).
      exists w'. split; [exact Hrun|]. split; [exact HA'|]. split; [exact He|].
      discriminate.
    + destruct (IH (pre ++ [(a, v)]) fuel w n (Some a)) as (w' & Hrun & HA' & He & Hsame).
      * rewrite <- app_assoc. exact HA.
      * exact Hcs.
      * rewrite fmap_snoc, last_snoc. reflexivity.
      * simpl in Hf. lia.
      * exists w'. split; [exact Hrun|]. rewrite <- app_assoc in HA'. auto.
Qed.

Lemma removeAll_loop_spec cs :
  forall k fuel w count link prev,
    lseg (links w) link cs None ->
    NoDup (k ++ cs).*1 ->
    Kept w k prev ->
    (length cs < fuel)%nat ->
    exists w',
      removeAll_loop fuel x count link prev w =
        Some ((count + Z.of_nat (length (List.filter (hit x) cs)),
               last (k ++ List.filter (miss x) cs).*1), w') /\
      Kept w' (k ++ List.filter (miss x) cs) (last (k ++ List.filter (miss x) cs).*1) /\
      _size (this w') = _size (this w) - Z.of_nat (length (List.filter (hit x) cs)) /\
      _back (this w') = _back (this w) /\
      env w' = env w.
Proof.
  induction cs as [|[a v] cs IH]; intros k fuel w count link prev Hl Hnd HK Hf;
    (destruct fuel as [|fuel]; [simpl in Hf; lia|]).
  - simpl in Hl. subst link. simpl. rewrite app_nil_r.
    destruct HK as [-> HK]. exists w. unfold ret. rewrite Z.add_0_r, Z.sub_0_r.
    repeat split; auto.
  - simpl in Hl. destruct Hl as (-> & n & Hla & Hcs).
    simpl. unfold bind at 1. unfold load at 1. rewrite Hla. simpl.
    change ((miss x) (a, v)) with (negb (strict_eq v x)).
    change ((hit x) (a, v)) with (strict_eq v x).
    destruct (strict_eq v x) eqn:Hv; simpl.
    + unfold bind at 1. unfold get_size at 1. unfold bind at 1. unfold set_size at 1.
      destruct (IH k fuel
                  (World (MkQueue (_size (this w) - 1) (_front (this w)) (_back (this w)))
                         (links w) (env w))
                  (count + 1) n prev) as (w' & Hrun & HK' & Hsz & Hbk & He).
      * exact Hcs.
      * rewrite fmap_app in *. simpl in Hnd.
        apply NoDup_app in Hnd as (H1 & H2 & H3). apply NoDup_cons in H3 as [_ H3].
        apply NoDup_app. repeat split; [exact H1 | | exact H3].
        intros y Hy Hy'. apply (H2 y Hy). right. exact Hy'.
      * exact HK.
      * simpl in Hf. lia.
      * exists w'. rewrite Hrun. simpl in *.
        split; [do 3 f_equal; lia|].
        split; [exact HK'|]. split; [lia|]. auto.
    + assert (Hnd' : NoDup ((k ++ [(a, v)]) ++ cs).*1)
        by (rewrite <- app_assoc; exact Hnd).
      assert (Hgoal : forall w1,
                 links w1 !! a = Some (Link n v) ->
                 lseg (links w1) n cs None ->
                 Kept w1 (k ++ [(a, v)]) (Some a) ->
                 _size (this w1) = _size (this w) ->
                 _back (this w1) = _back (this w) ->
                 env w1 = env w ->
                 exists w',
                   (let* l' := load a in
                    removeAll_loop fuel x count (next l') (Some a)) w1 =
                     Some ((count + Z.of_nat (length (List.filter (hit x) cs)),
                            last (k ++ (a, v) :: List.filter (miss x) cs).*1), w') /\
                   Kept w' (k ++ (a, v) :: List.filter (miss x) cs)
                     (last (k ++ (a, v) :: List.filter (miss x) cs).*1) /\
                   _size (this w') =
                     _size (this w) - Z.of_nat (length (List.filter (hit x) cs)) /\
                   _back (this w') = _back (this w) /\ env w' = env w).
      { intros w1 Hla1 Hcs1 HK1 Hsz1 Hbk1 He1.
        unfold bind, load. rewrite Hla1. simpl.
        destruct (IH (k ++ [(a, v)]) fuel w1 count n (Some a))
          as (w' & Hrun & HK' & Hsz & Hbk & He); auto.
        { simpl in Hf. lia. }
        exists w'. rewrite <- !app_assoc in *. simpl in *.
        rewrite Hrun. split; [reflexivity|]. split; [exact HK'|].
        split; [congruence|]. split; congruence. }
      destruct HK as [-> [-> | (k0 & p & vp & np & -> & Hk0 & Hlp)]].
      * simpl. unfold bind at 1. unfold set_front at 1.
        apply Hgoal; simpl; auto.
        split; [reflexivity|]. right. exists [], a, v, n. simpl. auto.
      * rewrite fmap_snoc, last_snoc. simpl.
        rewrite !fmap_app in Hnd. simpl in Hnd.
        apply NoDup_app in Hnd as (H1 & H2 & H3).
        apply NoDup_app in H1 as (H0 & H0p & _).
        apply NoDup_cons in H3 as [Hac H3].
        assert (Hpa : p ≠ a).
        { intros ->. apply (H2 a); [apply elem_of_app; right; left | left]. }
        assert (Hp0 : p ∉ k0.*1) by (intros Hin; apply (H0p p Hin); left).
        assert (Hpc : p ∉ cs.*1).
        { intros Hin. apply (H2 p); [apply elem_of_app; right; left | right; exact Hin]. }
        unfold bind at 1. unfold store_next at 1. rewrite Hlp.
        apply Hgoal; simpl; auto.
        -- rewrite lookup_insert_ne by exact Hpa. exact Hla.
        -- apply lseg_insert; assumption.
        -- split; [rewrite fmap_snoc, last_snoc; reflexivity|]. right.
           exists (k0 ++ [(p, vp)]), a, v, n. split; [reflexivity|]. split.
           ++ apply lseg_app. exists (Some p). split; [apply lseg_insert; assumption|].
              simpl. split; [reflexivity|]. exists (Some a).
              split; [apply lookup_insert_eq | reflexivity].
           ++ simpl. rewrite lookup_insert_ne by exact Hpa. exact Hla.
Qed.

Lemma remove_run w cells fuel :
  Abs (this w) (links w) cells ->
  (length cells < fuel)%nat ->
  exists w',
    remove fuel x w = Some (existsb (hit x) cells, w') /\
    Abs (this w') (links w') (drop_first (hit x) cells) /\
    env w' = env w /\
    (existsb (hit x) cells = false -> w' = w).
Proof.
  intros HA Hf. unfold remove, bind, get_front.
  apply (remove_loop_spec cells [] fuel w); auto.
  destruct HA as (Hs & _). exact Hs.
Qed.

Lemma removeAll_run w cells fuel :
  Abs (this w) (links w) cells ->
  (length cells < fuel)%nat ->
  exists w',
    removeAll fuel x w = Some (Z.of_nat (length (List.filter (hit x) cells)), w') /\
    Abs (this w') (links w') (List.filter (miss x) cells) /\
    env w' = env w.
Proof.
  intros (Hs & Hnd & Hn & Hb) Hf. unfold removeAll.
  unfold bind at 1. unfold get_front at 1. unfold bind at 1.
  destruct (removeAll_loop_spec cells [] fuel w 0 (_front (this w)) None)
    as (w1 & Hrun & [_ HK] & Hsz & Hbk & He); auto.
  { split; [reflexivity | left; reflexivity]. }
  rewrite Hrun. simpl in *.
  pose proof (filter_NoDup_fst (miss x) cells Hnd) as Hnd'.
  pose proof (filter_split_length (hit x) cells) as Hlen. fold (miss x) in Hlen.
  destruct HK as [HK | (k0 & p & vp & np & HK & Hk0 & Hlp)]; rewrite HK in *.
  - simpl. eexists. split; [reflexivity|]. simpl.
    split; [|exact He]. repeat split; simpl in *; [apply NoDup_nil_2 | lia].
  - rewrite fmap_snoc, last_snoc. simpl.
    unfold bind, store_next, set_back, ret. rewrite Hlp. simpl.
    eexists. split; [reflexivity|]. simpl. split; [|exact He].
    rewrite fmap_snoc in Hnd'. simpl in Hnd'.
    apply NoDup_app in Hnd' as (Hnd0 & Hndp & _).
    repeat split; simpl.
    + apply lseg_app. exists (Some p). split.
      * apply lseg_insert; [|exact Hk0]. intros Hin. apply (Hndp p Hin). left.
      * simpl. split; [reflexivity|]. exists None.
        split; [apply lookup_insert_eq | reflexivity].
    + rewrite fmap_snoc. simpl. apply NoDup_app.
      repeat split; [exact Hnd0 | exact Hndp | apply NoDup_singleton].
    + lia.
    + rewrite fmap_snoc, last_snoc. reflexivity.
Qed.

End Remove.

(** ** Callers *)

Lemma pushes_spec vs :
  forall w cells,
    Abs (this w) (links w) cells ->
    exists w' new,
      pushes vs w = Some (tt, w') /\
      Abs (this w') (links w') (cells ++ new) /\
      new.*2 = vs /\
      env w' = env w.
Proof.
  induction vs as [|v vs IH]; intros w cells HA; simpl.
  - exists w, []. rewrite app_nil_r. unfold ret. auto.
  - destruct (push_spec w v cells HA) as (w1 & Hrun & HA1 & He1 & _).
    destruct (IH w1 _ HA1) as (w2 & new & Hrun2 & HA2 & Hnew & He2).
    exists w2, ((fresh (dom (links w)), v) :: new).
    unfold bind. rewrite Hrun, Hrun2. rewrite <- app_assoc in HA2.
    split; [reflexivity|]. split; [exact HA2|]. split; [simpl; f_equal; exact Hnew|].
    congruence.
Qed.

Lemma pops_spec cells :
  forall w,
    Abs (this w) (links w) cells ->
    exists w',
      pops (length cells) w = Some (Some <$> cells.*2, w') /\
      Abs (this w') (links w') [] /\
      env w' = env w.
Proof.
  induction cells as [|c cells IH]; intros w HA; simpl.
  - exists w. unfold ret. auto.
  - destruct (pop_spec w _ HA) as (w1 & Hrun & HA1 & _ & He1 & _). simpl in *.
    destruct (IH w1 HA1) as (w2 & Hrun2 & HA2 & He2).
    exists w2. unfold bind, ret. rewrite Hrun, Hrun2.
    split; [reflexivity|]. split; [exact HA2 | congruence].
Qed.

Lemma observe_Abs w cells fuel :
  Abs (this w) (links w) cells ->
  (length cells < fuel)%nat ->
  observe fuel w =
    (Z.of_nat (length cells.*2), bool_decide (cells.*2 = []),
     head cells.*2, last cells.*2, Some (Some <$> cells.*2)).
Proof.
  intros HA Hf. unfold observe.
  destruct (getters w cells HA) as (-> & -> & -> & ->).
  rewrite (toArray_run w cells fuel HA Hf). reflexivity.
Qed.

Lemma observe_holds w vs fuel :
  holds (this w) (links w) vs ->
  (length vs < fuel)%nat ->
  observe fuel w =
    (Z.of_nat (length vs), bool_decide (vs = []), head vs, last vs, Some (Some <$> vs)).
Proof.
  intros (cells & HA & <-) Hf. rewrite length_fmap in Hf.
  apply observe_Abs; assumption.
Qed.

(** ** The properties of the specification *)

(** C1. FIFO order: on a new queue, pushing [v1 .. vn] in order and then
    popping [n] times returns [v1], [v2], ..., [vn] in that order (and
    leaves the queue empty). *)
Theorem fifo_order (w : world T E) (vs : list T) :
  exists w',
    (new_Queue None >> pushes vs >> pops (length vs)) w = Some (Some <$> vs, w') /\
    holds (this w') (links w') [].
Proof.
  destruct (new_Queue_spec None w) as (w0 & c0 & Hnew & HA0 & Hc0 & _).
  simpl in Hc0. destruct c0; [|discriminate].
  destruct (pushes_spec vs w0 [] HA0) as (w1 & cells & Hpush & HA1 & Hvs & _).
  simpl in HA1. destruct (pops_spec cells w1 HA1) as (w2 & Hpop & HA2 & _).
  exists w2. unfold bind. rewrite Hnew, Hpush.
  rewrite <- Hvs, length_fmap, Hpop.
  split; [reflexivity|]. exists []. auto.
Qed.

(** C2. The structural invariant ([_size] is 0 iff [_front] is null iff
    [_back] is null; the chain from [_front] is acyclic and reaches null
    after exactly [_size] steps; [_back] is the last link of the chain and
    its [next] is null) holds of every newly constructed queue and is
    preserved by [push], [pop], [remove], [removeAll] and [clear], each of
    which returns. *)
Theorem invariant_preserved `{StrictEq T} (w : world T E) :
  (forall items, exists w',
      new_Queue items w = Some (tt, w') /\ Inv (this w') (links w')) /\
  (Inv (this w) (links w) ->
   (forall v, exists w', push v w = Some (tt, w') /\ Inv (this w') (links w')) /\
   (exists r w', pop w = Some (r, w') /\ Inv (this w') (links w')) /\
   (forall fuel x, (Z.to_nat (_size (this w)) < fuel)%nat ->
      exists r w', remove fuel x w = Some (r, w') /\ Inv (this w') (links w')) /\
   (forall fuel x, (Z.to_nat (_size (this w)) < fuel)%nat ->
      exists r w', removeAll fuel x w = Some (r, w') /\ Inv (this w') (links w')) /\
   (exists w', clear w = Some (tt, w') /\ Inv (this w') (links w'))).
Proof.
  split.
  - intros items. destruct (new_Queue_spec items w) as (w' & cells & Hrun & HA & _).
    exists w'. split; [exact Hrun|]. eapply Abs_Inv; exact HA.
  - intros HI. destruct (Inv_Abs _ _ HI) as (cells & HA).
    assert (Hlen : Z.to_nat (_size (this w)) = length cells).
    { destruct HA as (_ & _ & -> & _). apply Nat2Z.id. }
    rewrite Hlen. repeat apply conj.
    + intros v. destruct (push_spec w v cells HA) as (w' & Hrun & HA' & _).
      exists w'. split; [exact Hrun|]. eapply Abs_Inv; exact HA'.
    + destruct (pop_spec w cells HA) as (w' & Hrun & HA' & _).
      exists (head cells.*2), w'. split; [exact Hrun|]. eapply Abs_Inv; exact HA'.
    + intros fuel x Hf.
      destruct (remove_run x w cells fuel HA Hf) as (w' & Hrun & HA' & _).
      eexists _, w'. split; [exact Hrun|]. eapply Abs_Inv; exact HA'.
    + intros fuel x Hf.
      destruct (removeAll_run x w cells fuel HA Hf) as (w' & Hrun & HA' & _).
      eexists _, w'. split; [exact Hrun|]. eapply Abs_Inv; exact HA'.
    + destruct (clear_spec w) as (w' & Hrun & HA' & _).
      exists w'. split; [exact Hrun|]. eapply Abs_Inv; exact HA'.
Qed.

(** C3. [removeAll(x)] removes every element equal to [x], keeps the others
    in their order, returns the number of elements removed (0 when [x] is
    absent, and then nothing changes in the sequence), and leaves [_size],
    [_front] and [_back] describing the filtered chain, both null when
    nothing is left. *)
Theorem removeAll_removes_every_occurrence `{StrictEq T}
    (w : world T E) (vs : list T) (fuel : nat) (x : T) :
  holds (this w) (links w) vs ->
  (length vs < fuel)%nat ->
  let kept := List.filter (fun v => negb (strict_eq v x)) vs in
  let gone := List.filter (fun v => strict_eq v x) vs in
  exists w',
    removeAll fuel x w = Some (Z.of_nat (length gone), w') /\
    holds (this w') (links w') kept /\
    Forall (fun v => strict_eq v x = false) kept /\
    kept `sublist_of` vs /\
    (length gone + length kept = length vs)%nat /\
    (Forall (fun v => strict_eq v x = false) vs -> length gone = 0%nat /\ kept = vs) /\
    Inv (this w') (links w') /\
    size w' = Z.of_nat (length kept) /\
    (kept = [] -> _front (this w') = None /\ _back (this w') = None).
Proof.
  intros (cells & HA & <-) Hf kept gone. rewrite length_fmap in Hf.
  destruct (removeAll_run x w cells fuel HA Hf) as (w' & Hrun & HA' & _).
  assert (Hkept : (List.filter (miss x) cells).*2 = kept)
    by exact (filter_fmap snd (fun v => negb (strict_eq v x)) cells).
  assert (Hgone : length (List.filter (hit x) cells) = length gone).
  { unfold gone. rewrite <- (filter_fmap snd (fun v => strict_eq v x) cells).
    rewrite length_fmap. reflexivity. }
  exists w'. rewrite Hrun, Hgone. split; [reflexivity|].
  split; [exists (List.filter (miss x) cells); auto|].
  split.
  { eapply Forall_impl; [apply filter_Forall|]. simpl. intros v Hv.
    apply negb_true_iff. exact Hv. }
  split; [apply filter_sublist|].
  split; [apply (filter_split_length (fun v => strict_eq v x))|].
  split.
  { intros Hno. split.
    - unfold gone. rewrite filter_none; [reflexivity | exact Hno].
    - apply filter_all. eapply Forall_impl; [exact Hno|]. simpl.
      intros v ->. reflexivity. }
  split; [eapply Abs_Inv; exact HA'|].
  split.
  { destruct (getters w' _ HA') as (-> & _). rewrite Hkept. reflexivity. }
  intros Hnil. rewrite <- Hkept in Hnil. apply fmap_nil_inv in Hnil.
  rewrite Hnil in HA'. destruct HA' as (Hs & _ & _ & Hb). simpl in *. auto.
Qed.

(** C4. [remove(x)] on a queue without [x] returns [false] and changes
    nothing; on a queue with [x] it returns [true], takes exactly one off
    the size and removes the occurrence nearest the front, the other
    elements keeping their order. *)
Theorem remove_first_occurrence `{StrictEq T}
    (w : world T E) (vs : list T) (fuel : nat) (x : T) :
  holds (this w) (links w) vs ->
  (length vs < fuel)%nat ->
  (Forall (fun v => strict_eq v x = false) vs ->
   remove fuel x w = Some (false, w)) /\
  (forall pre v post,
      vs = pre ++ v :: post ->
      Forall (fun u => strict_eq u x = false) pre ->
      strict_eq v x = true ->
      exists w',
        remove fuel x w = Some (true, w') /\
        holds (this w') (links w') (pre ++ post) /\
        size w' = size w - 1).
Proof.
  intros (cells & HA & <-) Hf. rewrite length_fmap in Hf.
  destruct (remove_run x w cells fuel HA Hf) as (w' & Hrun & HA' & _ & Hsame).
  assert (Hex : existsb (hit x) cells = existsb (fun v => strict_eq v x) cells.*2)
    by exact (existsb_fmap snd (fun v => strict_eq v x) cells).
  assert (Hdrop : (drop_first (hit x) cells).*2 = drop_first (fun v => strict_eq v x) cells.*2)
    by exact (drop_first_fmap snd (fun v => strict_eq v x) cells).
  split.
  - intros Hno.
    assert (Hf0 : existsb (fun v => strict_eq v x) cells.*2 = false).
    { clear -Hno. induction Hno as [|v l Hv _ IH]; simpl; [reflexivity|].
      rewrite Hv. exact IH. }
    rewrite Hrun, Hex, Hf0. rewrite Hsame by congruence. reflexivity.
  - intros pre v post Hvs Hpre Hv. exists w'.
    assert (Hdf : drop_first (fun v => strict_eq v x) cells.*2 = pre ++ post).
    { rewrite Hvs. clear -Hpre Hv. induction Hpre as [|u l Hu _ IH]; simpl.
      - rewrite Hv. reflexivity.
      - rewrite Hu, IH. reflexivity. }
    assert (Ht : existsb (fun v => strict_eq v x) cells.*2 = true).
    { rewrite Hvs. apply existsb_exists. exists v. split; [|exact Hv].
      apply in_or_app. right. left. reflexivity. }
    rewrite Hrun, Hex, Ht. split; [reflexivity|].
    split; [exists (drop_first (hit x) cells); split; [exact HA'|congruence]|].
    destruct (getters w' _ HA') as (-> & _). destruct (getters w _ HA) as (-> & _).
    rewrite Hdrop, Hdf, Hvs, !length_app. simpl. lia.
Qed.

(** C5. On an empty queue [front], [back] and [pop] return [undefined], and
    [pop] changes nothing. *)
Theorem empty_queue_absent (w : world T E) :
  Inv (this w) (links w) ->
  empty w = true ->
  front w = None /\ back w = None /\ pop w = Some (None, w).
Proof.
  intros HI He. destruct (Inv_Abs _ _ HI) as (cells & HA).
  destruct HI as (H0 & Hfb & _). unfold empty in He. apply Z.eqb_eq in He.
  apply H0 in He. pose proof (proj1 Hfb He) as Hb.
  unfold front, back, pop, bind, get_front, ret. rewrite He, Hb. auto.
Qed.

(** ** Traversals with a callback that leaves the queue alone *)

Lemma some_run w cells fuel pred :
  Abs (this w) (links w) cells -> keeps cells pred -> (length cells < fuel)%nat ->
  some fuel pred w =
    Some (let (r, w') := visit on_true pred 0 cells.*2 w in (bool_decide (r = Some tt), w')).
Proof.
  intros (Hs & _) Hk Hf. unfold some, bind, get_front.
  apply (some_loop_visit cells); auto.
Qed.

Lemma every_run w cells fuel pred :
  Abs (this w) (links w) cells -> keeps cells pred -> (length cells < fuel)%nat ->
  every fuel pred w =
    Some (let (r, w') := visit on_false pred 0 cells.*2 w in (bool_decide (r = None), w')).
Proof.
  intros (Hs & _) Hk Hf. unfold every, bind, get_front.
  apply (every_loop_visit cells); auto.
Qed.

Lemma forEach_run {U} w cells fuel (cb : callback T E (option U)) :
  Abs (this w) (links w) cells -> keeps cells cb -> (length cells < fuel)%nat ->
  forEach fuel cb w = Some (visit (fun r => r) cb 0 cells.*2 w).
Proof.
  intros (Hs & _) Hk Hf. unfold forEach, bind, get_front.
  apply (forEach_loop_visit cells); auto.
Qed.

Lemma Forall_replicate_eq {A} (P : A -> Prop) (a : A) n :
  P a -> Forall P (replicate n a).
Proof. intros Ha. induction n; simpl; constructor; assumption. Qed.

(** C6. [forEach] calls the callback on the elements from the front on,
    each with its index counted from 0.  When the call on element [k] is
    the first to return something other than [undefined], that is the
    result and the world is the one that very call left: nothing is
    called on the elements after it.  When every call returns
    [undefined], so does [forEach], after the call on the last element. *)
Theorem forEach_stops_at_first_result {U}
    (w : world T E) (cells : list (loc * T)) (fuel : nat)
    (cb : callback T E (option U)) :
  Abs (this w) (links w) cells ->
  keeps cells cb ->
  (length cells < fuel)%nat ->
  let vs := cells.*2 in
  (exists r w', forEach fuel cb w = Some (r, w')) /\
  (forall k v w1 u w2,
      vs !! k = Some v ->
      calls cb 0 (take k vs) w = (replicate k None, w1) ->
      cb v (Z.of_nat k) w1 = (Some u, w2) ->
      forEach fuel cb w = Some (Some u, w2)) /\
  (forall w',
      calls cb 0 vs w = (replicate (length vs) None, w') ->
      forEach fuel cb w = Some (None, w')).
Proof.
  intros HA Hk Hf vs. rewrite (forEach_run w cells fuel cb HA Hk Hf). fold vs.
  split; [|split].
  - destruct (visit (fun r => r) cb 0 vs w) as [r w']. eauto.
  - intros k v w1 u w2 Hv Hc Hcb. f_equal.
    eapply visit_stop;
      [exact Hv | exact Hc | apply Forall_replicate_eq; reflexivity | exact Hcb | reflexivity].
  - intros w' Hc. f_equal.
    eapply visit_all; [exact Hc | apply Forall_replicate_eq; reflexivity].
Qed.

(** C8. [some] calls the predicate on the elements from the front on, each
    with its index counted from 0, and returns [true] at the first element
    where it holds, without calling it on a later one; it returns [false]
    when it holds nowhere, in particular on the empty queue.  [every] is
    the dual: [false] at the first element where the predicate fails, and
    [true] when it fails nowhere, in particular on the empty queue. *)
Theorem some_every_short_circuit
    (w : world T E) (cells : list (loc * T)) (fuel : nat)
    (pred : callback T E bool) :
  Abs (this w) (links w) cells ->
  keeps cells pred ->
  (length cells < fuel)%nat ->
  let vs := cells.*2 in
  ((forall k v w1 w2,
       vs !! k = Some v ->
       calls pred 0 (take k vs) w = (replicate k false, w1) ->
       pred v (Z.of_nat k) w1 = (true, w2) ->
       some fuel pred w = Some (true, w2)) /\
   (forall w',
       calls pred 0 vs w = (replicate (length vs) false, w') ->
       some fuel pred w = Some (false, w')) /\
   (vs = [] -> some fuel pred w = Some (false, w))) /\
  ((forall k v w1 w2,
       vs !! k = Some v ->
       calls pred 0 (take k vs) w = (replicate k true, w1) ->
       pred v (Z.of_nat k) w1 = (false, w2) ->
       every fuel pred w = Some (false, w2)) /\
   (forall w',
       calls pred 0 vs w = (replicate (length vs) true, w') ->
       every fuel pred w = Some (true, w')) /\
   (vs = [] -> every fuel pred w = Some (true, w))).
Proof.
  intros HA Hk Hf vs.
  rewrite (some_run w cells fuel pred HA Hk Hf).
  rewrite (every_run w cells fuel pred HA Hk Hf). fold vs.
  split; (split; [|split]).
  - intros k v w1 w2 Hv Hc Hp.
    rewrite (visit_stop on_true pred vs 0 w k v _ w1 true tt w2 Hv Hc);
      [reflexivity | apply Forall_replicate_eq; reflexivity | exact Hp | reflexivity].
  - intros w' Hc. rewrite (visit_all on_true pred vs 0 w _ w' Hc);
      [reflexivity | apply Forall_replicate_eq; reflexivity].
  - intros ->. reflexivity.
  - intros k v w1 w2 Hv Hc Hp.
    rewrite (visit_stop on_false pred vs 0 w k v _ w1 false tt w2 Hv Hc);
      [reflexivity | apply Forall_replicate_eq; reflexivity | exact Hp | reflexivity].
  - intros w' Hc. rewrite (visit_all on_false pred vs 0 w _ w' Hc);
      [reflexivity | apply Forall_replicate_eq; reflexivity].
  - intros ->. reflexivity.
Qed.

Lemma untouched_observe w w' cells fuel :
  Abs (this w) (links w) cells ->
  (length cells < fuel)%nat ->
  untouched cells w w' ->
  this w' = this w /\
  holds (this w') (links w') cells.*2 /\
  observe fuel w' = observe fuel w.
Proof.
  intros HA Hf Hun. pose proof (untouched_Abs _ _ _ Hun HA) as HA'.
  split; [apply Hun|]. split; [exists cells; auto|].
  rewrite (observe_Abs w cells fuel HA Hf), (observe_Abs w' cells fuel HA' Hf).
  reflexivity.
Qed.

(** C10. [some], [every] and [forEach] do not mutate the queue: with a
    callback that does not mutate it, each of them returns and leaves the
    fields of the queue, its element sequence, and what [size], [empty],
    [front], [back] and [toArray] return as they were. *)
Theorem traversals_leave_queue_unchanged {U}
    (w : world T E) (cells : list (loc * T)) (fuel : nat)
    (pred : callback T E bool) (cb : callback T E (option U)) :
  Abs (this w) (links w) cells ->
  keeps cells pred ->
  keeps cells cb ->
  (length cells < fuel)%nat ->
  (exists r w',
      some fuel pred w = Some (r, w') /\
      this w' = this w /\ holds (this w') (links w') cells.*2 /\
      observe fuel w' = observe fuel w) /\
  (exists r w',
      every fuel pred w = Some (r, w') /\
      this w' = this w /\ holds (this w') (links w') cells.*2 /\
      observe fuel w' = observe fuel w) /\
  (exists r w',
      forEach fuel cb w = Some (r, w') /\
      this w' = this w /\ holds (this w') (links w') cells.*2 /\
      observe fuel w' = observe fuel w).
Proof.
  intros HA Hp Hc Hf.
  rewrite (some_run w cells fuel pred HA Hp Hf).
  rewrite (every_run w cells fuel pred HA Hp Hf).
  rewrite (forEach_run w cells fuel cb HA Hc Hf).
  pose proof (visit_untouched on_true cells pred cells.*2 Hp 0 w) as H1.
  pose proof (visit_untouched on_false cells pred cells.*2 Hp 0 w) as H2.
  pose proof (visit_untouched (fun r => r) cells cb cells.*2 Hc 0 w) as H3.
  destruct (visit on_true pred 0 cells.*2 w) as [r1 w1].
  destruct (visit on_false pred 0 cells.*2 w) as [r2 w2].
  destruct (visit (fun r => r) cb 0 cells.*2 w) as [r3 w3].
  simpl in H1, H2, H3.
  repeat apply conj; eexists _, _; (split; [reflexivity|]);
    eapply untouched_observe; eassumption.
Qed.

(** C7. Round trip: a queue constructed from [toArray()] of a queue has
    the same front-to-back sequence, hence the same [size], [empty],
    [front], [back] and [toArray()]; the queue it was copied from is left
    as it was. *)
Theorem toArray_round_trip (w : world T E) (vs : list T) (fuel : nat) :
  holds (this w) (links w) vs ->
  (length vs < fuel)%nat ->
  exists arr w',
    toArray fuel w = Some (arr, w) /\
    new_Queue (Some arr) w = Some (tt, w') /\
    holds (this w') (links w') vs /\
    observe fuel w' = observe fuel w /\
    holds (this w) (links w') vs.
Proof.
  intros (cells & HA & <-) Hf. rewrite length_fmap in Hf.
  exists (Some <$> cells.*2).
  destruct (new_Queue_spec (Some (Some <$> cells.*2)) w)
    as (w' & cells' & Hrun & HA' & Hvs & _ & Hfr).
  simpl in Hvs. rewrite omap_id_Some in Hvs.
  exists w'. split; [apply toArray_run; assumption|]. split; [exact Hrun|].
  split; [exists cells'; auto|].
  assert (Hlen : length cells' = length cells).
  { rewrite <- (length_fmap snd cells'), Hvs. apply length_fmap. }
  split.
  - rewrite (observe_Abs w cells fuel HA Hf).
    rewrite (observe_Abs w' cells' fuel HA') by lia.
    rewrite Hvs. reflexivity.
  - exists cells. split; [|reflexivity].
    destruct HA as (Hs & Hrest). split; [|exact Hrest].
    eapply lseg_frame; [|exact Hs]. intros a Ha. apply Hfr.
    eapply lseg_dom; eassumption.
Qed.

(** C9. The relinking [removeAll] and a filtering rebuild agree: run on the
    same queue, both return the number of elements left out, and the two
    resulting queues hold the same sequence (the elements that differ from
    [x], in order), so that [size], [empty], [front], [back] and
    [toArray()] cannot tell them apart. *)
Theorem removeAll_agrees_with_rebuild `{StrictEq T}
    (w : world T E) (vs : list T) (fuel : nat) (x : T) :
  holds (this w) (links w) vs ->
  (length vs < fuel)%nat ->
  let kept := List.filter (fun v => negb (strict_eq v x)) vs in
  exists c w1 w2,
    removeAll fuel x w = Some (c, w1) /\
    removeAll_rebuild fuel x w = Some (c, w2) /\
    c = Z.of_nat (length vs - length kept) /\
    holds (this w1) (links w1) kept /\
    holds (this w2) (links w2) kept /\
    observe fuel w1 = observe fuel w2.
Proof.
  intros (cells & HA & <-) Hf kept. rewrite length_fmap in Hf.
  destruct (removeAll_run x w cells fuel HA Hf) as (w1 & Hrun & HA1 & _).
  assert (Hkept : (List.filter (miss x) cells).*2 = kept)
    by exact (filter_fmap snd (fun v => negb (strict_eq v x)) cells).
  pose proof (filter_split_length (hit x) cells) as Hsplit.
  change (fun a => negb (hit x a)) with (miss x) in Hsplit.
  assert (Hklen : length kept = length (List.filter (miss x) cells)).
  { rewrite <- Hkept. apply length_fmap. }
  destruct (new_Queue_spec (Some (Some <$> kept)) w)
    as (w2 & cells2 & Hnew & HA2 & Hvs2 & _).
  simpl in Hvs2. rewrite omap_id_Some in Hvs2.
  assert (Hlen2 : length cells2 = length kept).
  { rewrite <- Hvs2. symmetry. apply length_fmap. }
  exists (Z.of_nat (length (List.filter (hit x) cells))), w1, w2.
  split; [exact Hrun|]. split.
  { unfold removeAll_rebuild, filter. unfold bind, get_size, get_front.
    destruct HA as (Hs & _ & Hn & _).
    rewrite (filter_loop_pure _ cells [] fuel 0 _ w Hs Hf). cbv beta iota.
    change ([] ++ (Some <$> List.filter (fun v => negb (strict_eq v x)) cells.*2))
      with (Some <$> kept).
    rewrite Hnew. unfold ret.
    destruct HA2 as (_ & _ & Hn2 & _). rewrite Hn, Hn2. do 2 f_equal. lia. }
  split; [rewrite length_fmap; f_equal; lia|].
  split; [exists (List.filter (miss x) cells); auto|].
  split; [exists cells2; auto|].
  rewrite (observe_Abs w1 _ fuel HA1) by lia.
  rewrite (observe_Abs w2 _ fuel HA2) by lia.
  rewrite Hkept, Hvs2. reflexivity.
Qed.

(** ** Further properties of the methods *)

Lemma keeps_pure {R} cells (f : T -> Z -> R) : keeps cells (pure_cb (E:=E) f).
Proof. intros v i w. apply untouched_refl. Qed.

Lemma calls_pure {R} (f : T -> Z -> R) vs :
  forall i (w : world T E),
    calls (pure_cb f) i vs w = ((fun vi => f vi.1 vi.2) <$> indexed i vs, w).
Proof.
  induction vs as [|v vs IH]; intros i w; simpl; [reflexivity|].
  rewrite IH. reflexivity.
Qed.

Lemma visit_pure {R U} (stop : R -> option U) (f : T -> Z -> R) vs :
  forall i (w : world T E),
    visit stop (pure_cb f) i vs w =
      (head (omap (fun vi => stop (f vi.1 vi.2)) (indexed i vs)), w).
Proof.
  induction vs as [|v vs IH]; intros i w; simpl; [reflexivity|].
  destruct (stop (f v i)); simpl; [reflexivity | apply IH].
Qed.

Lemma head_on_true (g : T * Z -> bool) l :
  bool_decide (head (omap (fun vi => on_true (g vi)) l) = Some tt) = existsb g l.
Proof.
  induction l as [|x l IH]; simpl; [reflexivity|].
  destruct (g x); simpl; [reflexivity | exact IH].
Qed.

Lemma head_on_false (g : T * Z -> bool) l :
  bool_decide (head (omap (fun vi => on_false (g vi)) l) = None) = forallb g l.
Proof.
  induction l as [|x l IH]; simpl; [reflexivity|].
  destruct (g x); simpl; [exact IH | reflexivity].
Qed.

Lemma chosen_pure (p : T -> Z -> bool) (vs : list T) :
  forall i,
    chosen vs ((fun vi => p vi.1 vi.2) <$> indexed i vs) =
      (List.filter (fun vi => p vi.1 vi.2) (indexed i vs)).*1.
Proof.
  induction vs as [|v vs IH]; intros i; simpl; [reflexivity|].
  destruct (p v i); simpl; rewrite IH; reflexivity.
Qed.

Lemma chosen_sublist (vs : list T) : forall flags, chosen vs flags `sublist_of` vs.
Proof.
  induction vs as [|v vs IH]; intros [|b flags]; simpl; try apply sublist_nil_l.
  destruct b; [apply sublist_skip | apply sublist_cons]; apply IH.
Qed.

Lemma calls_length {R} (cb : callback T E R) vs :
  forall i w, length (calls cb i vs w).1 = length vs.
Proof.
  induction vs as [|v vs IH]; intros i w; simpl; [reflexivity|].
  destruct (cb v i w) as [r w1]. specialize (IH (i + 1) w1).
  destruct (calls cb (i + 1) vs w1) as [rs w2]. simpl in *. rewrite IH. reflexivity.
Qed.

Lemma calls_untouched {R} cells (cb : callback T E R) vs :
  keeps cells cb -> forall i w, untouched cells w (calls cb i vs w).2.
Proof.
  intros Hk. induction vs as [|v vs IH]; intros i w; simpl.
  - apply untouched_refl.
  - specialize (Hk v i w). destruct (cb v i w) as [r w1]. simpl in Hk.
    specialize (IH (i + 1) w1). destruct (calls cb (i + 1) vs w1) as [rs w2].
    simpl in *. eapply untouched_trans; eassumption.
Qed.

Lemma filter_loop_calls all pred cs :
  keeps all pred ->
  (forall a, a ∈ cs.*1 -> a ∈ all.*1) ->
  forall acc fuel i link w,
    lseg (links w) link cs None ->
    (length cs < fuel)%nat ->
    filter_loop fuel pred i link acc w =
      Some (let (rs, w') := calls pred i cs.*2 w in
            (acc ++ (Some <$> chosen cs.*2 rs), w')).
Proof.
  intros Hk. induction cs as [|[a v] cs IH]; intros Hsub acc fuel i link w Hl Hf;
    (destruct fuel as [|fuel]; [simpl in Hf; lia|]).
  - simpl in *. subst link. rewrite app_nil_r. reflexivity.
  - simpl in Hl. destruct Hl as (-> & n & Hla & Hcs).
    simpl. unfold bind at 1. unfold load at 1. rewrite Hla. simpl.
    unfold bind at 1. unfold call at 1.
    pose proof (Hk v i w) as [_ Hun]. destruct (pred v i w) as [b w1]. simpl in Hun.
    unfold bind at 1. unfold load at 1.
    rewrite Hun, Hla by (apply Hsub; left). simpl.
    rewrite IH.
    + change (list_fmap (positive * T)%type T snd cs) with (cs.*2).
      destruct (calls pred (i + 1) cs.*2 w1) as [rs w2].
      destruct b; [|reflexivity].
      unfold array_push. rewrite <- app_assoc. reflexivity.
    + intros a' Ha'. apply Hsub. right. exact Ha'.
    + eapply lseg_frame; [|exact Hcs]. intros a' Ha'. apply Hun, Hsub. right. exact Ha'.
    + simpl in Hf. lia.
Qed.

Lemma map_loop_calls {U} all (cb : callback T E U) cs :
  keeps all cb ->
  (forall a, a ∈ cs.*1 -> a ∈ all.*1) ->
  forall (pre : list U) fuel link w,
    lseg (links w) link cs None ->
    (length cs < fuel)%nat ->
    map_loop fuel cb (Z.of_nat (length pre)) link
      ((Some <$> pre) ++ replicate (length cs) None) w =
      Some (let (rs, w') := calls cb (Z.of_nat (length pre)) cs.*2 w in
            (Some <$> (pre ++ rs), w')).
Proof.
  intros Hk. induction cs as [|[a v] cs IH]; intros Hsub pre fuel link w Hl Hf;
    (destruct fuel as [|fuel]; [simpl in Hf; lia|]).
  - simpl in *. subst link. rewrite !app_nil_r. reflexivity.
  - simpl in Hl. destruct Hl as (-> & n & Hla & Hcs).
    simpl. unfold bind at 1. unfold load at 1. rewrite Hla. simpl.
    unfold bind at 1. unfold call at 1.
    pose proof (Hk v (Z.of_nat (length pre)) w) as [_ Hun].
    destruct (cb v (Z.of_nat (length pre)) w) as [u w1]. simpl in Hun.
    unfold bind at 1. unfold load at 1.
    rewrite Hun, Hla by (apply Hsub; left). simpl.
    replace (Z.of_nat (length pre) + 1) with (Z.of_nat (length (pre ++ [u])))
      by (rewrite length_app; simpl; lia).
    replace (array_set (Z.of_nat (length pre)) u
               ((Some <$> pre) ++ None :: replicate (length cs) None))
      with ((Some <$> (pre ++ [u])) ++ replicate (length cs) None).
    + rewrite IH.
      * change (list_fmap (positive * T)%type T snd cs) with (cs.*2).
        destruct (calls cb (Z.of_nat (length (pre ++ [u]))) cs.*2 w1) as [rs w2].
        rewrite <- app_assoc. reflexivity.
      * intros a' Ha'. apply Hsub. right. exact Ha'.
      * eapply lseg_frame; [|exact Hcs]. intros a' Ha'. apply Hun, Hsub. right. exact Ha'.
      * simpl in Hf. lia.
    + unfold array_set. rewrite Nat2Z.id.
      assert (Hlt : (length pre <? length ((Some <$> pre) ++ None :: replicate (length cs) None))%nat = true).
      { apply Nat.ltb_lt. rewrite length_app, length_fmap. simpl. lia. }
      rewrite Hlt. rewrite insert_app_r_alt by (rewrite length_fmap; lia).
      rewrite length_fmap, Nat.sub_diag. simpl.
      rewrite fmap_app, <- app_assoc. reflexivity.
Qed.

(** *** Which links a removal writes to *)

Lemma remove_loop_footprint `{StrictEq T} (x : T) cs :
  forall fuel link prev w r w',
    lseg (links w) link cs None ->
    remove_loop fuel x link prev w = Some (r, w') ->
    forall a, Some a ≠ prev -> a ∉ cs.*1 -> links w' !! a = links w !! a.
Proof.
  induction cs as [|[a0 v] cs IH]; intros fuel link prev w r w' Hl Hrun a Hp Ha;
    (destruct fuel as [|fuel]; [discriminate Hrun|]).
  - simpl in Hl. subst link. simpl in Hrun. injection Hrun as <- <-. reflexivity.
  - simpl in Hl. destruct Hl as (-> & n & Hla & Hcs).
    apply not_elem_of_cons in Ha as [Ha0 Ha].
    simpl in Hrun. unfold bind at 1 in Hrun. unfold load at 1 in Hrun.
    rewrite Hla in Hrun. simpl in Hrun.
    destruct (strict_eq v x).
    + unfold bind, set_front, store_next, load, set_back, get_size, set_size, ret in Hrun.
      destruct prev as [p|]; simpl in Hrun.
      * destruct (links w !! p) as [lp|] eqn:Hlp; [|discriminate Hrun]. simpl in Hrun.
        destruct (<[p:=Link n (value lp)]> (links w) !! a0) as [l'|];
          [|discriminate Hrun].
        simpl in Hrun.
        destruct (next l'); simpl in Hrun; injection Hrun as <- <-; simpl;
          apply lookup_insert_ne; congruence.
      * rewrite Hla in Hrun. simpl in Hrun.
        destruct n; simpl in Hrun; injection Hrun as <- <-; reflexivity.
    + apply (IH fuel n (Some a0) w r w' Hcs Hrun a); [|exact Ha].
      intros [= Heq]. apply Ha0. exact Heq.
Qed.

Lemma removeAll_loop_footprint `{StrictEq T} (x : T) cs :
  forall fuel count link prev w r w',
    lseg (links w) link cs None ->
    NoDup cs.*1 ->
    (forall p, prev = Some p -> p ∉ cs.*1) ->
    removeAll_loop fuel x count link prev w = Some (r, w') ->
    forall a, Some a ≠ prev -> a ∉ cs.*1 -> links w' !! a = links w !! a.
Proof.
  induction cs as [|[a0 v] cs IH];
    intros fuel count link prev w r w' Hl Hnd Hpc Hrun a Hp Ha;
    (destruct fuel as [|fuel]; [discriminate Hrun|]).
  - simpl in Hl. subst link. simpl in Hrun. injection Hrun as <- <-. reflexivity.
  - simpl in Hl. destruct Hl as (-> & n & Hla & Hcs).
    apply not_elem_of_cons in Ha as [Ha0 Ha].
    simpl in Hnd. apply NoDup_cons in Hnd as [Ha0c Hnd].
    simpl in Hrun. unfold bind at 1 in Hrun. unfold load at 1 in Hrun.
    rewrite Hla in Hrun. simpl in Hrun.
    destruct (strict_eq v x).
    + unfold bind at 1 in Hrun. unfold get_size at 1 in Hrun.
      unfold bind at 1 in Hrun. unfold set_size at 1 in Hrun.
      match type of Hrun with
      | removeAll_loop ?f _ ?c ?l ?pv ?w1 = _ =>
          apply (IH f c l pv w1 r w' Hcs Hnd) with (a := a) in Hrun;
            [exact Hrun | | exact Hp | exact Ha]
      end.
      intros p Hpp Hin. apply (Hpc p Hpp). right. exact Hin.
    + destruct prev as [p|].
      * assert (Hpa : p ≠ a0) by (intros ->; apply (Hpc a0 eq_refl); left).
        assert (Hpn : p ∉ cs.*1) by (intros Hin; apply (Hpc p eq_refl); right; exact Hin).
        unfold bind at 1 in Hrun. unfold store_next at 1 in Hrun.
        destruct (links w !! p) as [lp|] eqn:Hlp; [|discriminate Hrun].
        unfold bind at 1 in Hrun. unfold load at 1 in Hrun. simpl in Hrun.
        rewrite lookup_insert_ne in Hrun by exact Hpa.
        rewrite Hla in Hrun. simpl in Hrun.
        match type of Hrun with
        | removeAll_loop ?f _ ?c ?l ?pv ?w1 = _ =>
            assert (Hcs1 : lseg (links w1) n cs None)
              by (simpl; apply lseg_insert; assumption);
            apply (IH f c l pv w1 r w' Hcs1 Hnd) with (a := a) in Hrun;
              [ rewrite Hrun; simpl; apply lookup_insert_ne; congruence
              | intros q [= <-]; exact Ha0c
              | intros [= Heq]; apply Ha0; exact Heq
              | exact Ha ]
        end.
      * unfold bind at 1 in Hrun. unfold set_front at 1 in Hrun.
        unfold bind at 1 in Hrun. unfold load at 1 in Hrun. simpl in Hrun.
        rewrite Hla in Hrun. simpl in Hrun.
        match type of Hrun with
        | removeAll_loop ?f _ ?c ?l ?pv ?w1 = _ =>
            apply (IH f c l pv w1 r w' Hcs Hnd) with (a := a) in Hrun;
              [ rewrite Hrun; reflexivity
              | intros q [= <-]; exact Ha0c
              | intros [= Heq]; apply Ha0; exact Heq
              | exact Ha ]
        end.
Qed.

Lemma remove_footprint `{StrictEq T} (x : T) w cells fuel r w' :
  Abs (this w) (links w) cells ->
  remove fuel x w = Some (r, w') ->
  forall a, a ∉ cells.*1 -> links w' !! a = links w !! a.
Proof.
  intros (Hs & _) Hrun a Ha. unfold remove, bind, get_front in Hrun.
  eapply remove_loop_footprint; [exact Hs | exact Hrun | discriminate | exact Ha].
Qed.

Lemma removeAll_footprint `{StrictEq T} (x : T) w cells fuel r w' :
  Abs (this w) (links w) cells ->
  (length cells < fuel)%nat ->
  removeAll fuel x w = Some (r, w') ->
  forall a, a ∉ cells.*1 -> links w' !! a = links w !! a.
Proof.
  intros (Hs & Hnd & _) Hf Hrun a Ha. unfold removeAll in Hrun.
  unfold bind at 1 in Hrun. unfold get_front at 1 in Hrun.
  unfold bind at 1 in Hrun.
  destruct (removeAll_loop_spec x cells [] fuel w 0 (_front (this w)) None)
    as (w1 & Hloop & _); auto.
  { split; [reflexivity | left; reflexivity]. }
  assert (Hnone : forall p : positive, @None positive = Some p -> p ∉ cells.*1)
    by (intros p Hp; discriminate Hp).
  pose proof (removeAll_loop_footprint x cells _ _ _ _ _ _ _ Hs Hnd Hnone Hloop a) as Hfp.
  rewrite Hloop in Hrun. simpl in Hrun.
  assert (H1 : links w1 !! a = links w !! a) by (apply Hfp; [discriminate | exact Ha]).
  destruct (last (List.filter (miss x) cells).*1) as [p|] eqn:Hlast.
  - assert (Hpa : p ≠ a).
    { intros ->. apply Ha. apply last_Some_elem_of in Hlast.
      apply list_elem_of_fmap in Hlast as (c & -> & Hc).
      apply list_elem_of_fmap_2. eapply filter_elem_of. exact Hc. }
    unfold bind, store_next, set_back, ret in Hrun.
    destruct (links w1 !! p); [|discriminate Hrun]. simpl in Hrun.
    injection Hrun as _ <-. simpl. rewrite lookup_insert_ne by exact Hpa. exact H1.
  - unfold bind, set_front, set_back, ret in Hrun. simpl in Hrun.
    injection Hrun as _ <-. exact H1.
Qed.

(** *** One call, and a sequence of calls, against a list *)

Lemma list_op_length `{StrictEq T} (o : op T) (vs : list T) :
  (length (list_op o vs).2 <= S (length vs))%nat.
Proof.
  destruct o; simpl.
  - rewrite length_app. simpl. lia.
  - destruct vs; simpl; lia.
  - pose proof (drop_first_length_le (fun v => strict_eq v x) vs). lia.
  - pose proof (filter_length_le (fun v => negb (strict_eq v x)) vs). lia.
  - lia.
Qed.

Lemma exec_spec `{StrictEq T} (o : op T) w cells fuel :
  Abs (this w) (links w) cells ->
  (length cells < fuel)%nat ->
  exists w' cells',
    exec fuel o w = Some ((list_op o cells.*2).1, w') /\
    Abs (this w') (links w') cells' /\
    cells'.*2 = (list_op o cells.*2).2 /\
    env w' = env w.
Proof.
  intros HA Hf. destruct o as [v| |x|x|]; simpl.
  - destruct (push_spec w v cells HA) as (w' & Hrun & HA' & He & _).
    exists w', (cells ++ [(fresh (dom (links w)), v)]).
    unfold bind, ret. rewrite Hrun. rewrite fmap_snoc. auto.
  - destruct (pop_spec w cells HA) as (w' & Hrun & HA' & _ & He & _).
    exists w', (tail cells). unfold bind, ret. rewrite Hrun.
    split; [reflexivity|]. split; [exact HA'|]. split; [|exact He].
    destruct cells; reflexivity.
  - destruct (remove_run x w cells fuel HA Hf) as (w' & Hrun & HA' & He & _).
    exists w', (drop_first (hit x) cells). unfold bind, ret. rewrite Hrun.
    split.
    { refine (f_equal (fun b => Some (Removed b, w')) _).
      exact (existsb_fmap snd (fun v => strict_eq v x) cells). }
    split; [exact HA'|]. split; [|exact He].
    exact (drop_first_fmap snd (fun v => strict_eq v x) cells).
  - destruct (removeAll_run x w cells fuel HA Hf) as (w' & Hrun & HA' & He).
    exists w', (List.filter (miss x) cells). unfold bind, ret. rewrite Hrun.
    split.
    { refine (f_equal (fun n => Some (Count (Z.of_nat n), w')) _).
      transitivity (length ((List.filter (hit x) cells).*2));
        [symmetry; apply length_fmap|].
      f_equal. exact (filter_fmap snd (fun v => strict_eq v x) cells). }
    split; [exact HA'|]. split; [|exact He].
    exact (filter_fmap snd (fun v => negb (strict_eq v x)) cells).
  - destruct (clear_spec w) as (w' & Hrun & HA' & _ & He).
    exists w', []. unfold bind, ret. rewrite Hrun. auto.
Qed.

Lemma exec_footprint `{StrictEq T} (o : op T) w cells fuel r w' :
  Abs (this w) (links w) cells ->
  (length cells < fuel)%nat ->
  exec fuel o w = Some (r, w') ->
  forall a, a ∈ dom (links w) -> a ∉ cells.*1 -> links w' !! a = links w !! a.
Proof.
  intros HA Hf Hrun a Hd Ha. destruct o as [v| |x|x|]; simpl in Hrun.
  - destruct (push_spec w v cells HA) as (w1 & Hpush & _ & _ & Hfr & _).
    unfold bind, ret in Hrun. rewrite Hpush in Hrun. injection Hrun as _ <-.
    apply Hfr; assumption.
  - destruct (pop_spec w cells HA) as (w1 & Hpop & _ & Hl & _).
    unfold bind, ret in Hrun. rewrite Hpop in Hrun. injection Hrun as _ <-.
    rewrite Hl. reflexivity.
  - unfold bind, ret in Hrun.
    destruct (remove fuel x w) as [[b w1]|] eqn:Hrem; [|discriminate Hrun].
    injection Hrun as _ <-. eapply remove_footprint; eassumption.
  - unfold bind, ret in Hrun.
    destruct (removeAll fuel x w) as [[n w1]|] eqn:Hrem; [|discriminate Hrun].
    injection Hrun as _ <-. eapply removeAll_footprint; eassumption.
  - destruct (clear_spec w) as (w1 & Hclear & _ & Hl & _).
    unfold bind, ret in Hrun. rewrite Hclear in Hrun. injection Hrun as _ <-.
    rewrite Hl. reflexivity.
Qed.

(** ** Further properties, stated for users of the queue *)

(** X1. On a queue holding [vs], [size] is the length of [vs], [empty]
    tells whether [vs] is empty, [front] is its first value and [back]
    its last (both [undefined] when there is none). *)
Theorem getters_read_the_sequence (w : world T E) (vs : list T) :
  holds (this w) (links w) vs ->
  size w = Z.of_nat (length vs) /\
  empty w = bool_decide (vs = []) /\
  front w = head vs /\
  back w = last vs.
Proof. intros (cells & HA & <-). exact (getters w cells HA). Qed.

(** X2. [push(v)] on a queue holding [vs] returns, and the queue then holds
    [vs] followed by [v]: the size grows by one, [back] is [v], and
    [front] is what it was unless the queue was empty. *)
Theorem push_appends (w : world T E) (vs : list T) (v : T) :
  holds (this w) (links w) vs ->
  exists w',
    push v w = Some (tt, w') /\
    holds (this w') (links w') (vs ++ [v]) /\
    size w' = size w + 1 /\
    back w' = Some v /\
    front w' = head (vs ++ [v]) /\
    env w' = env w.
Proof.
  intros (cells & HA & <-).
  destruct (push_spec w v cells HA) as (w' & Hrun & HA' & He & _).
  exists w'. split; [exact Hrun|].
  destruct (getters w' _ HA') as (Hsz & _ & Hfr & Hbk).
  destruct (getters w _ HA) as (Hsz0 & _).
  rewrite fmap_snoc in Hsz, Hfr, Hbk. simpl in Hsz, Hfr, Hbk.
  split; [eexists; split; [exact HA' | apply fmap_snoc]|].
  split; [rewrite Hsz, Hsz0, length_app; simpl; lia|].
  split; [rewrite Hbk; apply last_snoc|].
  split; [exact Hfr | exact He].
Qed.

(** X3. [pop()] on a queue holding [v] followed by [vs] returns [v]; the
    queue then holds [vs], the size is one less, and no link of the store
    has been written to. *)
Theorem pop_takes_the_front (w : world T E) (v : T) (vs : list T) :
  holds (this w) (links w) (v :: vs) ->
  exists w',
    pop w = Some (Some v, w') /\
    holds (this w') (links w') vs /\
    size w' = size w - 1 /\
    links w' = links w /\
    env w' = env w.
Proof.
  intros (cells & HA & Hvs).
  destruct (pop_spec w cells HA) as (w' & Hrun & HA' & Hl & He & _).
  destruct (getters w' _ HA') as (Hsz & _). destruct (getters w _ HA) as (Hsz0 & _).
  destruct cells as [|c cells]; [discriminate Hvs|].
  simpl in Hvs. injection Hvs as Hv Hvs. simpl in *.
  exists w'. rewrite Hrun, Hv. split; [reflexivity|].
  split; [exists cells; auto|].
  split; [|auto].
  unfold size. rewrite (proj1 (proj2 (proj2 HA'))), (proj1 (proj2 (proj2 HA))).
  simpl length. lia.
Qed.

(** X4. [new Queue(items)] returns in any world.  The new queue holds the
    items of the array in order, the holes of a sparse array being
    skipped, and is empty when no array is given; and every queue that
    was in the store still holds what it held. *)
Theorem constructor_holds_the_items (w : world T E) (items : option (list (option T))) :
  exists w',
    new_Queue items w = Some (tt, w') /\
    holds (this w') (links w') (from_option (omap id) [] items) /\
    env w' = env w /\
    (forall qu vs, holds qu (links w) vs -> holds qu (links w') vs).
Proof.
  destruct (new_Queue_spec items w) as (w' & cells & Hrun & HA & Hvs & He & Hfr).
  exists w'. split; [exact Hrun|]. split; [exists cells; auto|]. split; [exact He|].
  intros qu vs (cs & (Hs & Hrest) & Hcs). exists cs. split; [|exact Hcs].
  split; [|exact Hrest]. eapply lseg_frame; [|exact Hs].
  intros a Ha. apply Hfr. eapply lseg_dom; eassumption.
Qed.

(** X5. [toArray()] on a queue holding [vs] returns the array of the values
    of [vs] in order, without holes and as long as [size], and changes
    nothing. *)
Theorem toArray_lists_the_values (w : world T E) (vs : list T) (fuel : nat) :
  holds (this w) (links w) vs ->
  (length vs < fuel)%nat ->
  toArray fuel w = Some (Some <$> vs, w) /\
  Z.of_nat (length (Some <$> vs)) = size w.
Proof.
  intros (cells & HA & <-) Hf. rewrite length_fmap in Hf.
  split; [apply toArray_run; assumption|].
  destruct (getters w cells HA) as (-> & _). rewrite length_fmap. reflexivity.
Qed.

(** X6. With a predicate that only computes from the value and the index,
    [some] is [existsb] and [every] is [forallb] over the values paired
    with their indices, the world is left exactly as it was, and [every]
    of a predicate is the negation of [some] of its negation. *)
Theorem some_every_on_pure_predicates
    (w : world T E) (vs : list T) (fuel : nat) (p : T -> Z -> bool) :
  holds (this w) (links w) vs ->
  (length vs < fuel)%nat ->
  some fuel (pure_cb p) w = Some (existsb (fun vi => p vi.1 vi.2) (indexed 0 vs), w) /\
  every fuel (pure_cb p) w = Some (forallb (fun vi => p vi.1 vi.2) (indexed 0 vs), w) /\
  every fuel (pure_cb p) w =
    (fun r => (negb r.1, r.2)) <$> some fuel (pure_cb (fun v i => negb (p v i))) w.
Proof.
  intros (cells & HA & <-) Hf. rewrite length_fmap in Hf.
  rewrite (some_run w cells fuel _ HA (keeps_pure cells p) Hf).
  rewrite (every_run w cells fuel _ HA (keeps_pure cells p) Hf).
  rewrite (some_run w cells fuel _ HA (keeps_pure cells (fun v i => negb (p v i))) Hf).
  rewrite !visit_pure.
  rewrite (head_on_true (fun vi => p vi.1 vi.2)).
  rewrite (head_on_true (fun vi => negb (p vi.1 vi.2))).
  rewrite (head_on_false (fun vi => p vi.1 vi.2)).
  split; [reflexivity|]. split; [reflexivity|]. simpl.
  rewrite (forallb_negb_existsb (fun vi => p vi.1 vi.2)). reflexivity.
Qed.

(** X7. [filter] calls the predicate on every element, from the front on
    and with the indices from 0, and returns the array, without holes,
    of the values on which the call returned [true], in queue order; with
    a predicate that leaves the queue alone the queue is unchanged. *)
Theorem filter_collects_the_accepted
    (w : world T E) (cells : list (loc * T)) (fuel : nat)
    (pred : callback T E bool) :
  Abs (this w) (links w) cells ->
  keeps cells pred ->
  (length cells < fuel)%nat ->
  let vs := cells.*2 in
  exists rs w',
    calls pred 0 vs w = (rs, w') /\
    length rs = length vs /\
    filter fuel pred w = Some (Some <$> chosen vs rs, w') /\
    chosen vs rs `sublist_of` vs /\
    this w' = this w /\
    holds (this w') (links w') vs.
Proof.
  intros HA Hk Hf vs.
  pose proof (calls_length pred vs 0 w) as Hlen.
  pose proof (calls_untouched cells pred vs Hk 0 w) as Hun.
  assert (Hrun : filter fuel pred w =
                 Some (let (rs, w') := calls pred 0 vs w in
                       ([] ++ (Some <$> chosen vs rs), w'))).
  { unfold filter, bind, get_front. destruct HA as (Hs & _).
    apply (filter_loop_calls cells); auto. }
  destruct (calls pred 0 vs w) as [rs w']. simpl in Hlen, Hun, Hrun.
  exists rs, w'. split; [reflexivity|]. split; [exact Hlen|]. split; [exact Hrun|].
  split; [apply chosen_sublist|]. split; [apply Hun|].
  exists cells. split; [|reflexivity]. eapply untouched_Abs; eassumption.
Qed.

(** X8. [map] calls the callback on every element, from the front on and
    with the indices from 0, and returns the array of the results in that
    order, without holes and as long as [size]; with a callback that
    leaves the queue alone the queue is unchanged. *)
Theorem map_collects_the_results {U}
    (w : world T E) (cells : list (loc * T)) (fuel : nat)
    (cb : callback T E U) :
  Abs (this w) (links w) cells ->
  keeps cells cb ->
  (length cells < fuel)%nat ->
  let vs := cells.*2 in
  exists rs w',
    calls cb 0 vs w = (rs, w') /\
    map fuel cb w = Some (Some <$> rs, w') /\
    Z.of_nat (length (Some <$> rs)) = size w /\
    this w' = this w /\
    holds (this w') (links w') vs.
Proof.
  intros HA Hk Hf vs.
  pose proof (calls_length cb vs 0 w) as Hlen.
  pose proof (calls_untouched cells cb vs Hk 0 w) as Hun.
  assert (Hrun : map fuel cb w =
                 Some (let (rs, w') := calls cb 0 vs w in (Some <$> ([] ++ rs), w'))).
  { unfold map, bind, get_size, lift, get_front, new_Array.
    destruct HA as (Hs & _ & Hn & _). rewrite Hn.
    destruct (Z.of_nat (length cells) <? 0) eqn:Hneg; [lia|].
    rewrite Nat2Z.id.
    exact (map_loop_calls cells cb cells Hk (fun a Ha => Ha) [] fuel _ w Hs Hf). }
  destruct (calls cb 0 vs w) as [rs w']. simpl in Hlen, Hun, Hrun.
  exists rs, w'. split; [reflexivity|]. split; [exact Hrun|].
  split.
  { rewrite length_fmap, Hlen. unfold vs. rewrite length_fmap.
    destruct HA as (_ & _ & Hn & _). unfold size. rewrite Hn. reflexivity. }
  split; [apply Hun|].
  exists cells. split; [|reflexivity]. eapply untouched_Abs; eassumption.
Qed.

(** X9. With callbacks that only compute from the value and the index,
    [filter], [map] and [forEach] are the list functions over the values
    paired with their indices (the accepted values, the images, the
    first result that is not [undefined]) and leave the world exactly as
    it was. *)
Theorem traversals_on_pure_callbacks {U V}
    (w : world T E) (vs : list T) (fuel : nat)
    (p : T -> Z -> bool) (f : T -> Z -> U) (g : T -> Z -> option V) :
  holds (this w) (links w) vs ->
  (length vs < fuel)%nat ->
  filter fuel (pure_cb p) w =
    Some (Some <$> (List.filter (fun vi => p vi.1 vi.2) (indexed 0 vs)).*1, w) /\
  map fuel (pure_cb f) w =
    Some (Some <$> ((fun vi => f vi.1 vi.2) <$> indexed 0 vs), w) /\
  forEach fuel (pure_cb g) w =
    Some (head (omap (fun vi => g vi.1 vi.2) (indexed 0 vs)), w).
Proof.
  intros (cells & HA & <-) Hf. rewrite length_fmap in Hf.
  split; [|split].
  - unfold filter, bind, get_front. destruct HA as (Hs & _).
    rewrite (filter_loop_calls cells (pure_cb p) cells (keeps_pure cells p)
               (fun a Ha => Ha) [] fuel 0 _ w Hs Hf).
    rewrite calls_pure, chosen_pure. reflexivity.
  - unfold map, bind, get_size, lift, get_front, new_Array.
    destruct HA as (Hs & _ & Hn & _). rewrite Hn.
    destruct (Z.of_nat (length cells) <? 0) eqn:Hneg; [lia|].
    rewrite Nat2Z.id.
    etransitivity;
      [exact (map_loop_calls cells (pure_cb f) cells (keeps_pure cells f)
                (fun a Ha => Ha) [] fuel _ w Hs Hf)|].
    simpl. rewrite calls_pure. reflexivity.
  - rewrite (forEach_run w cells fuel _ HA (keeps_pure cells g) Hf).
    rewrite visit_pure. reflexivity.
Qed.

(** X10. Any sequence of [push], [pop], [remove], [removeAll] and [clear]
    calls on a queue holding [vs] returns what the same calls return on
    the plain list [vs], and leaves the queue holding the list they leave;
    in particular [size] is the length of that list, never negative. *)
Theorem calls_agree_with_lists `{StrictEq T}
    (os : list (op T)) (w : world T E) (vs : list T) (fuel : nat) :
  holds (this w) (links w) vs ->
  (length vs + length os < fuel)%nat ->
  exists w',
    execs fuel os w = Some ((list_ops os vs).1, w') /\
    holds (this w') (links w') (list_ops os vs).2 /\
    size w' = Z.of_nat (length (list_ops os vs).2) /\
    env w' = env w.
Proof.
  revert w vs. induction os as [|o os IH]; intros w vs Hh Hf.
  - exists w. simpl. split; [reflexivity|]. split; [exact Hh|].
    destruct Hh as (cells & HA & <-). destruct (getters w cells HA) as (-> & _). auto.
  - destruct Hh as (cells & HA & <-). rewrite length_fmap in Hf. simpl in Hf.
    destruct (exec_spec o w cells fuel HA) as (w1 & cells1 & Hrun & HA1 & Hvs1 & He1);
      [lia|].
    pose proof (list_op_length o cells.*2) as Hlen. rewrite length_fmap in Hlen.
    destruct (IH w1 cells1.*2) as (w2 & Hrun2 & Hh2 & Hsz2 & He2).
    { exists cells1. auto. }
    { rewrite Hvs1. lia. }
    exists w2. simpl. unfold bind, ret. rewrite Hrun, Hrun2. rewrite Hvs1 in *.
    destruct (list_op o cells.*2) as [r vs1]. simpl in *.
    destruct (list_ops os vs1) as [rs vs2]. simpl in *.
    split; [reflexivity|]. split; [exact Hh2|]. split; [exact Hsz2 | congruence].
Qed.

(** X11. [removeAll(x)] is idempotent: called again right after, it returns
    0 and the queue holds the same values; and [remove(x)] right after
    returns [false] and changes nothing. *)
Theorem removeAll_then_nothing_left `{StrictEq T}
    (w : world T E) (vs : list T) (fuel : nat) (x : T) :
  holds (this w) (links w) vs ->
  (length vs < fuel)%nat ->
  let kept := List.filter (fun v => negb (strict_eq v x)) vs in
  exists c w1,
    removeAll fuel x w = Some (c, w1) /\
    holds (this w1) (links w1) kept /\
    (exists w2, removeAll fuel x w1 = Some (0, w2) /\ holds (this w2) (links w2) kept) /\
    remove fuel x w1 = Some (false, w1).
Proof.
  intros (cells & HA & <-) Hf kept. rewrite length_fmap in Hf.
  destruct (removeAll_run x w cells fuel HA Hf) as (w1 & Hrun & HA1 & _).
  pose proof (filter_length_le (miss x) cells) as Hle.
  assert (Hkept : (List.filter (miss x) cells).*2 = kept)
    by exact (filter_fmap snd (fun v => negb (strict_eq v x)) cells).
  destruct (removeAll_run x w1 _ fuel HA1) as (w2 & Hrun2 & HA2 & _); [lia|].
  destruct (remove_run x w1 _ fuel HA1) as (w3 & Hrun3 & _ & _ & Hsame); [lia|].
  unfold miss in Hrun2, HA2, Hrun3, Hsame.
  rewrite (filter_twice_neg (hit x) cells) in Hrun2.
  rewrite (filter_twice_same (fun a => negb (hit x a)) cells) in HA2.
  rewrite (existsb_filter_neg (hit x) cells) in Hrun3, Hsame.
  rewrite (Hsame eq_refl) in Hrun3.
  eexists _, w1. split; [exact Hrun|].
  split; [exists (List.filter (miss x) cells); split; [exact HA1 | exact Hkept]|].
  split; [|exact Hrun3]. exists w2. split; [exact Hrun2|].
  exists (List.filter (miss x) cells). split; [exact HA2 | exact Hkept].
Qed.

(** X12. A method call on one queue leaves every other queue of the store
    alone: [push], [pop], [remove], [removeAll] and [clear] write only to
    links of the receiver (and to the link they allocate), so a queue
    sharing no link with it is made of the same links afterwards. *)
Theorem methods_leave_other_queues `{StrictEq T}
    (w : world T E) (cells : list (loc * T))
    (other : Queue) (others : list (loc * T)) (fuel : nat) (o : op T) :
  Abs (this w) (links w) cells ->
  Abs other (links w) others ->
  (forall a, a ∈ cells.*1 -> a ∉ others.*1) ->
  (length cells < fuel)%nat ->
  exists r w',
    exec fuel o w = Some (r, w') /\
    Abs other (links w') others.
Proof.
  intros HA (Hs & Hrest) Hdis Hf.
  destruct (exec_spec o w cells fuel HA Hf) as (w' & cells' & Hrun & _).
  eexists _, w'. split; [exact Hrun|]. split; [|exact Hrest].
  eapply lseg_frame; [|exact Hs]. intros a Ha.
  eapply exec_footprint; [exact HA | exact Hf | exact Hrun | |].
  - eapply lseg_dom; eassumption.
  - intros Hin. exact (Hdis a Hin Ha).
Qed.

(** X13. Round trip from the array side: [new Queue(items).toArray()] is
    [items] with its holes dropped, so an array without holes comes back
    as it was. *)
Theorem constructor_then_toArray
    (w : world T E) (items : list (option T)) (fuel : nat) :
  (length items < fuel)%nat ->
  exists w',
    new_Queue (Some items) w = Some (tt, w') /\
    toArray fuel w' = Some (Some <$> omap id items, w') /\
    (Forall is_Some items -> toArray fuel w' = Some (items, w')).
Proof.
  intros Hf.
  destruct (new_Queue_spec (Some items) w) as (w' & cells & Hrun & HA & Hvs & _).
  simpl in Hvs. pose proof (omap_id_length items) as Hle.
  assert (Hlen : length cells = length (omap id items)).
  { rewrite <- Hvs. symmetry. apply length_fmap. }
  assert (Harr : toArray fuel w' = Some (Some <$> omap id items, w')).
  { rewrite <- Hvs. apply toArray_run; [exact HA | lia]. }
  exists w'. split; [exact Hrun|]. split; [exact Harr|].
  intros Hd. rewrite Harr, (omap_id_dense items Hd). reflexivity.
Qed.

End Proofs.

(** ** The properties at a concrete queue *)

(** Evaluating a chain of a concrete store link by link. *)
Ltac chain :=
  simpl; repeat (split; [reflexivity|]; eexists; split; [reflexivity|]); reflexivity.

Ltac distinct :=
  simpl; apply (bool_decide_unpack _); vm_compute; exact I.

Ltac queue_of cells :=
  exists cells; split; [split; [chain | split; [distinct | split; reflexivity]] | reflexivity].

Ltac invariant_of locs :=
  split; [simpl; split; discriminate |
  split; [simpl; split; discriminate |
  split; [exists locs; split; [chain | split; [distinct | split; reflexivity]] |
          simpl; intros ? [= <-]; eexists; split; reflexivity]]].

Ltac leaves_alone :=
  intros ? ? ?; split; [reflexivity | intros; reflexivity].

(** The tests of the repository, run on the model. *)
Example scenario_pushes :
  (new_Queue None >> pushes [42; 43; 44; 44; 45] >> toArray 6) nowhere =
    Some ([Some 42; Some 43; Some 44; Some 44; Some 45], sample).
Proof. vm_compute. reflexivity. Qed.

Example scenario_removals :
  fst <$> (let* a := remove 6 42 in
           let* b := remove 6 19 in
           let* c := removeAll 6 44 in
           let* arr := toArray 6 in
           ret (a, b, c, arr)) sample =
    Some (true, false, 2, [Some 43; Some 45]).
Proof. vm_compute. reflexivity. Qed.

Example scenario_forEach :
  (fun r => (r.1, env r.2)) <$> forEach 6 until_44 sample =
    Some (Some true, [42; 43; 44]).
Proof. vm_compute. reflexivity. Qed.

(** A callback that pops while [forEach] runs is outside the contract:
    the traversal still walks the old chain, and the queue ends up empty. *)
Example scenario_mutating_callback :
  (fun r => (r.1, size r.2)) <$> forEach 6 popping sample = Some (None, 0).
Proof. vm_compute. reflexivity. Qed.

Lemma invariant_preserved_witness :
  Inv (this sample) (links sample) /\
  exists w', push 46 sample = Some (tt, w') /\ Inv (this w') (links w').
Proof.
  assert (HI : Inv (this sample) (links sample))
    by invariant_of [1%positive; 2%positive; 3%positive; 4%positive; 5%positive].
  split; [exact HI|].
  exact (proj1 (proj2 (invariant_preserved sample) HI) 46).
Defined.

Lemma removeAll_removes_every_occurrence_witness :
  holds (this sample) (links sample) [42; 43; 44; 44; 45] /\
  exists w', removeAll 6 44 sample = Some (2, w') /\
             holds (this w') (links w') [42; 43; 45].
Proof.
  assert (Hh : holds (this sample) (links sample) [42; 43; 44; 44; 45])
    by queue_of sample_cells.
  split; [exact Hh|].
  destruct (removeAll_removes_every_occurrence sample _ 6 44 Hh) as (w' & Hrun & Hk & _).
  - simpl. lia.
  - exists w'. split; [exact Hrun | exact Hk].
Defined.

Lemma remove_first_occurrence_witness :
  holds (this sample) (links sample) [42; 43; 44; 44; 45] /\
  remove 6 19 sample = Some (false, sample) /\
  exists w', remove 6 44 sample = Some (true, w') /\
             holds (this w') (links w') [42; 43; 44; 45] /\ size w' = 4.
Proof.
  assert (Hh : holds (this sample) (links sample) [42; 43; 44; 44; 45])
    by queue_of sample_cells.
  split; [exact Hh|].
  assert (Hf : (length [42; 43; 44; 44; 45] < 6)%nat) by (simpl; lia).
  destruct (remove_first_occurrence sample _ 6 19 Hh Hf) as [Habsent _].
  destruct (remove_first_occurrence sample _ 6 44 Hh Hf) as [_ Hpresent].
  split.
  - apply Habsent. repeat constructor.
  - apply (Hpresent [42; 43] 44 [44; 45]); [reflexivity | repeat constructor | reflexivity].
Defined.

Lemma empty_queue_absent_witness :
  front nowhere = None /\ back nowhere = None /\ pop nowhere = Some (None, nowhere).
Proof.
  apply (empty_queue_absent nowhere).
  - split; [simpl; tauto|]. split; [simpl; tauto|].
    split; [exists []; split; [reflexivity | split; [constructor | split; reflexivity]]|].
    simpl. discriminate.
  - reflexivity.
Defined.

Lemma forEach_stops_at_first_result_witness :
  Abs (this sample) (links sample) sample_cells /\
  keeps sample_cells until_44 /\
  (fun r => (r.1, env r.2)) <$> forEach 6 until_44 sample = Some (Some true, [42; 43; 44]).
Proof.
  assert (HA : Abs (this sample) (links sample) sample_cells)
    by (split; [chain | split; [distinct | split; reflexivity]]).
  assert (Hk : keeps sample_cells until_44) by leaves_alone.
  split; [exact HA|]. split; [exact Hk|].
  assert (Hf : (length sample_cells < 6)%nat) by (simpl; lia).
  destruct (forEach_stops_at_first_result sample sample_cells 6 until_44 HA Hk Hf)
    as (_ & Hstop & _).
  rewrite (Hstop 2%nat 44 (World (this sample) (links sample) [42; 43]) true
                 (World (this sample) (links sample) [42; 43; 44]));
    reflexivity.
Defined.

Lemma toArray_round_trip_witness :
  holds (this sample) (links sample) [42; 43; 44; 44; 45] /\
  exists arr w',
    toArray 6 sample = Some (arr, sample) /\
    new_Queue (Some arr) sample = Some (tt, w') /\
    holds (this w') (links w') [42; 43; 44; 44; 45] /\
    observe 6 w' = observe 6 sample.
Proof.
  assert (Hh : holds (this sample) (links sample) [42; 43; 44; 44; 45])
    by queue_of sample_cells.
  split; [exact Hh|].
  destruct (toArray_round_trip sample _ 6 Hh) as (arr & w' & H1 & H2 & H3 & H4 & _).
  - simpl. lia.
  - exists arr, w'. auto.
Defined.

Lemma some_every_short_circuit_witness :
  Abs (this sample) (links sample) sample_cells /\
  keeps sample_cells above_43 /\
  (fun r => (r.1, env r.2)) <$> some 6 above_43 sample = Some (true, [0; 1; 2]) /\
  (fun r => (r.1, env r.2)) <$> every 6 above_43 sample = Some (false, [0]).
Proof.
  assert (HA : Abs (this sample) (links sample) sample_cells)
    by (split; [chain | split; [distinct | split; reflexivity]]).
  assert (Hk : keeps sample_cells above_43) by leaves_alone.
  split; [exact HA|]. split; [exact Hk|].
  assert (Hf : (length sample_cells < 6)%nat) by (simpl; lia).
  destruct (some_every_short_circuit sample sample_cells 6 above_43 HA Hk Hf)
    as ((Hsome & _) & (Hevery & _)).
  split.
  - rewrite (Hsome 2%nat 44 (World (this sample) (links sample) [0; 1])
                   (World (this sample) (links sample) [0; 1; 2]));
      reflexivity.
  - rewrite (Hevery 0%nat 42 sample (World (this sample) (links sample) [0]));
      reflexivity.
Defined.

Lemma removeAll_agrees_with_rebuild_witness :
  holds (this sample) (links sample) [42; 43; 44; 44; 45] /\
  exists w1 w2,
    removeAll 6 44 sample = Some (2, w1) /\
    removeAll_rebuild 6 44 sample = Some (2, w2) /\
    observe 6 w1 = observe 6 w2.
Proof.
  assert (Hh : holds (this sample) (links sample) [42; 43; 44; 44; 45])
    by queue_of sample_cells.
  split; [exact Hh|].
  destruct (removeAll_agrees_with_rebuild sample _ 6 44 Hh)
    as (c & w1 & w2 & H1 & H2 & -> & _ & _ & H3).
  - simpl. lia.
  - exists w1, w2. auto.
Defined.

Lemma traversals_leave_queue_unchanged_witness :
  Abs (this sample) (links sample) sample_cells /\
  keeps sample_cells above_43 /\
  keeps sample_cells until_44 /\
  exists r w',
    forEach 6 until_44 sample = Some (r, w') /\
    this w' = this sample /\ observe 6 w' = observe 6 sample.
Proof.
  assert (HA : Abs (this sample) (links sample) sample_cells)
    by (split; [chain | split; [distinct | split; reflexivity]]).
  assert (Hp : keeps sample_cells above_43) by leaves_alone.
  assert (Hc : keeps sample_cells until_44) by leaves_alone.
  split; [exact HA|]. split; [exact Hp|]. split; [exact Hc|].
  assert (Hf : (length sample_cells < 6)%nat) by (simpl; lia).
  destruct (traversals_leave_queue_unchanged sample sample_cells 6 above_43 until_44
              HA Hp Hc Hf) as (_ & _ & r & w' & Hrun & Ht & _ & Ho).
  exists r, w'. auto.
Defined.

(** ** The further properties at concrete queues *)

Lemma getters_read_the_sequence_witness :
  holds (this sample) (links sample) [42; 43; 44; 44; 45] /\
  size sample = 5 /\ empty sample = false /\
  front sample = Some 42 /\ back sample = Some 45.
Proof.
  assert (Hh : holds (this sample) (links sample) [42; 43; 44; 44; 45])
    by queue_of sample_cells.
  split; [exact Hh|].
  exact (getters_read_the_sequence sample _ Hh).
Defined.

Lemma push_appends_witness :
  holds (this sample) (links sample) [42; 43; 44; 44; 45] /\
  exists w',
    push 46 sample = Some (tt, w') /\
    holds (this w') (links w') [42; 43; 44; 44; 45; 46] /\
    back w' = Some 46.
Proof.
  assert (Hh : holds (this sample) (links sample) [42; 43; 44; 44; 45])
    by queue_of sample_cells.
  split; [exact Hh|].
  destruct (push_appends sample _ 46 Hh) as (w' & Hrun & Hh' & _ & Hb & _).
  exists w'. auto.
Defined.

Lemma pop_takes_the_front_witness :
  holds (this sample) (links sample) [42; 43; 44; 44; 45] /\
  exists w',
    pop sample = Some (Some 42, w') /\
    holds (this w') (links w') [43; 44; 44; 45] /\
    links w' = links sample.
Proof.
  assert (Hh : holds (this sample) (links sample) [42; 43; 44; 44; 45])
    by queue_of sample_cells.
  split; [exact Hh|].
  destruct (pop_takes_the_front sample 42 _ Hh) as (w' & Hrun & Hh' & _ & Hl & _).
  exists w'. auto.
Defined.

Lemma constructor_holds_the_items_witness :
  holds (this sample) (links sample) [42; 43; 44; 44; 45] /\
  exists w',
    new_Queue (Some [Some 1; None; Some 3]) sample = Some (tt, w') /\
    holds (this w') (links w') [1; 3] /\
    holds (this sample) (links w') [42; 43; 44; 44; 45].
Proof.
  assert (Hh : holds (this sample) (links sample) [42; 43; 44; 44; 45])
    by queue_of sample_cells.
  split; [exact Hh|].
  destruct (constructor_holds_the_items sample (Some [Some 1; None; Some 3]))
    as (w' & Hrun & Hh' & _ & Hkeep).
  exists w'. split; [exact Hrun|]. split; [exact Hh'|]. apply Hkeep. exact Hh.
Defined.

Lemma toArray_lists_the_values_witness :
  holds (this sample) (links sample) [42; 43; 44; 44; 45] /\
  toArray 6 sample = Some ([Some 42; Some 43; Some 44; Some 44; Some 45], sample).
Proof.
  assert (Hh : holds (this sample) (links sample) [42; 43; 44; 44; 45])
    by queue_of sample_cells.
  split; [exact Hh|].
  apply (toArray_lists_the_values sample _ 6 Hh). simpl. lia.
Defined.

Lemma some_every_on_pure_predicates_witness :
  holds (this sample) (links sample) [42; 43; 44; 44; 45] /\
  some 6 (pure_cb (fun v i => (v =? 44) && (i =? 3))) sample = Some (true, sample) /\
  every 6 (pure_cb (fun v i => (v =? 44) && (i =? 3))) sample = Some (false, sample).
Proof.
  assert (Hh : holds (this sample) (links sample) [42; 43; 44; 44; 45])
    by queue_of sample_cells.
  split; [exact Hh|].
  assert (Hf : (length [42; 43; 44; 44; 45] < 6)%nat) by (simpl; lia).
  destruct (some_every_on_pure_predicates sample _ 6
              (fun v i => (v =? 44) && (i =? 3)) Hh Hf) as (Hs & He & _).
  split; [exact Hs | exact He].
Defined.

Lemma filter_collects_the_accepted_witness :
  Abs (this sample) (links sample) sample_cells /\
  keeps sample_cells above_43 /\
  (fun r => (r.1, env r.2)) <$> filter 6 above_43 sample =
    Some ([Some 44; Some 44; Some 45], [0; 1; 2; 3; 4]).
Proof.
  assert (HA : Abs (this sample) (links sample) sample_cells)
    by (split; [chain | split; [distinct | split; reflexivity]]).
  assert (Hk : keeps sample_cells above_43) by leaves_alone.
  split; [exact HA|]. split; [exact Hk|].
  assert (Hf : (length sample_cells < 6)%nat) by (simpl; lia).
  destruct (filter_collects_the_accepted sample sample_cells 6 above_43 HA Hk Hf)
    as (rs & w' & Hc & _ & Hrun & _).
  rewrite Hrun. injection Hc as <- <-. reflexivity.
Defined.

Lemma map_collects_the_results_witness :
  Abs (this sample) (links sample) sample_cells /\
  keeps sample_cells doubling /\
  (fun r => (r.1, env r.2)) <$> map 6 doubling sample =
    Some ([Some 84; Some 86; Some 88; Some 88; Some 90], [0; 1; 2; 3; 4]).
Proof.
  assert (HA : Abs (this sample) (links sample) sample_cells)
    by (split; [chain | split; [distinct | split; reflexivity]]).
  assert (Hk : keeps sample_cells doubling) by leaves_alone.
  split; [exact HA|]. split; [exact Hk|].
  assert (Hf : (length sample_cells < 6)%nat) by (simpl; lia).
  destruct (map_collects_the_results sample sample_cells 6 doubling HA Hk Hf)
    as (rs & w' & Hc & Hrun & _).
  rewrite Hrun. injection Hc as <- <-. reflexivity.
Defined.

Lemma traversals_on_pure_callbacks_witness :
  holds (this sample) (links sample) [42; 43; 44; 44; 45] /\
  filter 6 (pure_cb (fun v i => Z.even i)) sample =
    Some ([Some 42; Some 44; Some 45], sample) /\
  map 6 (pure_cb (fun v i => v + i)) sample =
    Some ([Some 42; Some 44; Some 46; Some 47; Some 49], sample) /\
  forEach 6 (pure_cb (fun v i => if v =? 44 then Some i else None)) sample =
    Some (Some 2, sample).
Proof.
  assert (Hh : holds (this sample) (links sample) [42; 43; 44; 44; 45])
    by queue_of sample_cells.
  split; [exact Hh|].
  assert (Hf : (length [42; 43; 44; 44; 45] < 6)%nat) by (simpl; lia).
  exact (traversals_on_pure_callbacks sample _ 6
           (fun v i => Z.even i) (fun v i => v + i)
           (fun v i => if v =? 44 then Some i else None) Hh Hf).
Defined.

Lemma calls_agree_with_lists_witness :
  holds (this sample) (links sample) [42; 43; 44; 44; 45] /\
  exists w',
    execs 14 [Remove 42; Remove 19; RemoveAll 44; Pop; Push 7; Pop; Pop; Pop] sample =
      Some ([Removed true; Removed false; Count 2; Popped (Some 43); Done;
             Popped (Some 45); Popped (Some 7); Popped None], w') /\
    holds (this w') (links w') [] /\
    size w' = 0.
Proof.
  assert (Hh : holds (this sample) (links sample) [42; 43; 44; 44; 45])
    by queue_of sample_cells.
  split; [exact Hh|].
  destruct (calls_agree_with_lists
              [Remove 42; Remove 19; RemoveAll 44; Pop; Push 7; Pop; Pop; Pop]
              sample _ 14 Hh) as (w' & Hrun & Hh' & Hsz & _).
  - simpl. lia.
  - exists w'. auto.
Defined.

Lemma removeAll_then_nothing_left_witness :
  holds (this sample) (links sample) [42; 43; 44; 44; 45] /\
  exists c w1,
    removeAll 6 44 sample = Some (c, w1) /\
    (exists w2, removeAll 6 44 w1 = Some (0, w2)) /\
    remove 6 44 w1 = Some (false, w1).
Proof.
  assert (Hh : holds (this sample) (links sample) [42; 43; 44; 44; 45])
    by queue_of sample_cells.
  split; [exact Hh|].
  destruct (removeAll_then_nothing_left sample _ 6 44 Hh)
    as (c & w1 & Hrun & _ & (w2 & Hrun2 & _) & Hrem).
  - simpl. lia.
  - exists c, w1. split; [exact Hrun|]. split; [exists w2; exact Hrun2 | exact Hrem].
Defined.

Lemma methods_leave_other_queues_witness :
  Abs (this shared) (links shared) sample_cells /\
  Abs annex (links shared) annex_cells /\
  exists r w',
    exec 6 (RemoveAll 44) shared = Some (r, w') /\
    Abs annex (links w') annex_cells.
Proof.
  assert (HA : Abs (this shared) (links shared) sample_cells)
    by (split; [chain | split; [distinct | split; reflexivity]]).
  assert (HB : Abs annex (links shared) annex_cells)
    by (split; [chain | split; [distinct | split; reflexivity]]).
  split; [exact HA|]. split; [exact HB|].
  apply (methods_leave_other_queues shared sample_cells annex annex_cells 6
           (RemoveAll 44) HA HB).
  - intros a Ha Hb. simpl in Ha, Hb.
    repeat (apply elem_of_cons in Ha as [-> | Ha];
            [repeat (apply elem_of_cons in Hb as [Hb | Hb]; [discriminate Hb|]);
             inversion Hb|]).
    inversion Ha.
  - simpl. lia.
Defined.

Lemma constructor_then_toArray_witness :
  exists w',
    new_Queue (Some [Some 0; Some 1; Some 2; Some 3]) nowhere = Some (tt, w') /\
    toArray 5 w' = Some ([Some 0; Some 1; Some 2; Some 3], w').
Proof.
  destruct (constructor_then_toArray nowhere [Some 0; Some 1; Some 2; Some 3] 5)
    as (w' & Hrun & Harr & _).
  - simpl. lia.
  - exists w'. split; [exact Hrun | exact Harr].
Defined.
